(** * proxyutils: the proxy record and the resilient proxy session

    A shallow embedding of [proxyutils/__init__.py]: the [Proxy] dataclass
    (validation, normalisation, URL forms, default sort key) and
    [ResilientProxySession] (proxy rotation, request/retry, proxy-error
    classification), with the properties the specification states about them.

    Modelling conventions.
    - A [str] is modelled by its UTF-8 encoding, a [string]: [+] and [==] are
      those of the bytes, [len] counts the code points, and [upper]/[lower]
      are the ASCII maps on ASCII strings and whatever the Unicode tables say
      (class [Unicode]) on the others.
    - Python numbers ([int] and [float]) are modelled as exact rationals
      extended with the two infinities and NaN.
    - [datetime.timedelta] is an integer number of microseconds.
    - A raised exception is the error branch of [result]. *)

From Stdlib Require Import ZArith QArith Qcanon Lia Ascii String Sorted Permutation.
From stdpp Require Import base numbers strings list gmap pretty sorting.

Local Open Scope Z_scope.
Local Open Scope string_scope.
Local Open Scope list_scope.

#[local] Set Warnings "-clear-no-such-hyp".

(** ** Python values *)

(** [int] and [float]. *)
Inductive number :=
  | NInf
  | Fin (q : Qc)
  | PInf
  | NaN.

Global Instance number_eq_dec : EqDecision number.
Proof. solve_decision. Defined.

Definition num_of_Z (z : Z) : number := Fin (Qc_of_Z z).

(** [a < b]: false whenever NaN is involved *)
Definition num_ltb (a b : number) : bool :=
  match a, b with
  | NaN, _ | _, NaN => false
  | NInf, NInf => false
  | NInf, _ => true
  | Fin _, NInf => false
  | Fin x, Fin y => bool_decide (x < y)%Qc
  | Fin _, PInf => true
  | PInf, _ => false
  end.

(** [a == b]: NaN equals nothing, itself included *)
Definition num_eqb (a b : number) : bool :=
  match a, b with
  | NaN, _ | _, NaN => false
  | _, _ => bool_decide (a = b)
  end.

Definition is_nan (a : number) : bool :=
  match a with NaN => true | _ => false end.

(** unary minus *)
Definition num_neg (a : number) : number :=
  match a with
  | NInf => PInf
  | Fin x => Fin (- x)%Qc
  | PInf => NInf
  | NaN => NaN
  end.

(** truth value of a number: zero is falsy, NaN is not *)
Definition num_truthy (a : number) : bool :=
  match a with
  | Fin x => negb (bool_decide (x = 0%Qc))
  | _ => true
  end.

(** [float("inf")] *)
Definition float_inf : number := PInf.

(** [datetime.timedelta], in microseconds. *)
Definition timedelta := Z.

(** [dt.timedelta.max]: 999999999 days, 23:59:59.999999 *)
Definition timedelta_max : timedelta := 86399999999999999999.

Definition timedelta_truthy (t : timedelta) : bool := negb (Z.eqb t 0).

(** [x or d] where [x] may be [None] *)
Definition py_or {A} (truthy : A -> bool) (x : option A) (d : A) : A :=
  match x with
  | Some v => if truthy v then v else d
  | None => d
  end.

(** ** Exception objects

    A raised exception is an object in a graph of exception objects linked by
    [__cause__] and [__context__].  Objects are identified by their address
    ([node]); the three [isinstance] tests the session performs are recorded
    per object. *)

Definition node := positive.

Record exc_class := {
  isa_requests_ProxyError : bool;      (* requests.exceptions.ProxyError *)
  isa_requests_ConnectionError : bool; (* requests.exceptions.ConnectionError *)
  isa_socks_ProxyError : bool          (* socks.ProxyError *)
}.

Record exc_obj := {
  cls : exc_class;
  __cause__ : option node;
  __context__ : option node
}.

Abbreviation graph := (gmap node exc_obj).

Inductive exception :=
  | ValueError (msg : string)
  | RuntimeError (msg : string)
  | Exc (g : graph) (ex : node).   (* an exception object with its links *)

Inductive result (A : Type) :=
  | Ok (a : A)
  | Raise (e : exception).
Arguments Ok {A} a.
Arguments Raise {A} e.

(** ** Strings *)

Fixpoint str_map (f : ascii -> ascii) (s : string) : string :=
  match s with
  | EmptyString => EmptyString
  | String c s' => String (f c) (str_map f s')
  end.

Fixpoint str_forall (P : ascii -> bool) (s : string) : bool :=
  match s with
  | EmptyString => true
  | String c s' => P c && str_forall P s'
  end.

Definition is_ascii_char (c : ascii) : bool := (N_of_ascii c <? 128)%N.

Definition is_ascii_str (s : string) : bool := str_forall is_ascii_char s.

(** A byte [10xxxxxx] continues a code point begun earlier. *)
Definition is_continuation (c : ascii) : bool :=
  (N.land (N_of_ascii c) 192 =? 128)%N.

(** [len(s)]: the number of code points. *)
Fixpoint py_len (s : string) : nat :=
  match s with
  | EmptyString => O
  | String c s' => ((if is_continuation c then 0 else 1) + py_len s')%nat
  end.

Definition is_lower_letter (c : ascii) : bool :=
  let n := N_of_ascii c in ((97 <=? n) && (n <=? 122))%N.

Definition is_upper_letter (c : ascii) : bool :=
  let n := N_of_ascii c in ((65 <=? n) && (n <=? 90))%N.

Definition upper_char (c : ascii) : ascii :=
  if is_lower_letter c then ascii_of_N (N_of_ascii c - 32) else c.

Definition lower_char (c : ascii) : ascii :=
  if is_upper_letter c then ascii_of_N (N_of_ascii c + 32) else c.

(** What [str.upper] and [str.lower] return for a string that holds a
    non-ASCII character: the case mappings of the Unicode database, which can
    change the length of a string.  Nothing is assumed of them. *)
Class Unicode := {
  unicode_upper : string -> string;
  unicode_lower : string -> string
}.

(** [s.upper()] and [s.lower()] *)
Definition upper {U : Unicode} (s : string) : string :=
  if is_ascii_str s then str_map upper_char s else unicode_upper s.

Definition lower {U : Unicode} (s : string) : string :=
  if is_ascii_str s then str_map lower_char s else unicode_lower s.

(** ** The proxy record *)

Inductive ProxyAnonymity := TRANSPARENT | ANONYMOUS | ELITE.

(** [port: int | str] *)
Inductive port_t :=
  | PortInt (n : Z)
  | PortStr (s : string).

(** [str(port)], as the f-strings format it *)
Definition port_str (p : port_t) : string :=
  match p with
  | PortInt n => pretty n
  | PortStr s => s
  end.

(** The keyword arguments of the dataclass constructor.  The three metrics
    can be [None] in practice, which is what [__post_init__] normalises. *)
Record ProxyArgs := {
  arg_ip : string;
  arg_port : port_t;
  arg_protocol : string;
  arg_country : string;
  arg_uptime : option number;
  arg_response_time : option number;
  arg_last_checked : option timedelta;
  arg_gateway : option string;
  arg_anonymity : option ProxyAnonymity
}.

(** The record after [__post_init__]. *)
Record Proxy := {
  ip : string;
  port : port_t;
  protocol : string;
  country : string;
  uptime : number;
  response_time : number;
  last_checked : timedelta;
  gateway : option string;
  anonymity : option ProxyAnonymity
}.

Section ProxyMethods.
Context {U : Unicode}.

(** [Proxy.__post_init__] *)
Definition __post_init__ (a : ProxyArgs) : result Proxy :=
  if negb (Nat.eqb (py_len (arg_country a)) 2) then
    Raise (ValueError "Country must be a 2-letter country code")
  else
    Ok {| ip := arg_ip a;
          port := arg_port a;
          protocol := arg_protocol a;
          country := upper (arg_country a);
          uptime := py_or num_truthy (arg_uptime a) (num_of_Z 0);
          last_checked := py_or timedelta_truthy (arg_last_checked a) timedelta_max;
          response_time := py_or num_truthy (arg_response_time a) float_inf;
          gateway := arg_gateway a;
          anonymity := arg_anonymity a |}.

(** [Proxy.url] *)
Definition url (p : Proxy) : string :=
  lower (protocol p) +:+ "://" +:+ ip p +:+ ":" +:+ port_str (port p).

(** [Proxy.requests_protocol] *)
Definition requests_protocol (p : Proxy) : string :=
  let proto := lower (protocol p) in
  if String.eqb proto "socks4" then "socks4a"
  else if String.eqb proto "socks5" then "socks5h"
  else proto.

(** [Proxy.requests_url] *)
Definition requests_url (p : Proxy) : string :=
  requests_protocol p +:+ "://" +:+ ip p +:+ ":" +:+ port_str (port p).

(** [Proxy.requests_proxies]: the dict [{'http': url, 'https': url}] *)
Definition requests_proxies (p : Proxy) : gmap string string :=
  <["https" := requests_url p]> (<["http" := requests_url p]> ∅).
End ProxyMethods.

(** The sort key, a 3-tuple. *)
Definition key : Type := number * timedelta * number.

(** [Proxy.sort_key] *)
Definition sort_key (p : Proxy) : key :=
  (num_neg (uptime p), last_checked p, response_time p).

(** Tuple comparison [a < b]: the first position where the tuples differ
    ([==] fails) decides.  Tuples take two items that are the same object for
    equal; that can only matter for a NaN, and only in the last position (the
    first item is a fresh object for each key), where [<] is false either
    way. *)
Definition key_ltb (a b : key) : bool :=
  let '(a1, a2, a3) := a in
  let '(b1, b2, b3) := b in
  if negb (num_eqb a1 b1) then num_ltb a1 b1
  else if negb (Z.eqb a2 b2) then Z.ltb a2 b2
  else num_ltb a3 b3.

(** Tuple comparison [a == b], on keys of distinct records. *)
Definition key_eqb (a b : key) : bool :=
  let '(a1, a2, a3) := a in
  let '(b1, b2, b3) := b in
  num_eqb a1 b1 && Z.eqb a2 b2 && num_eqb a3 b3.

Definition key_has_nan (k : key) : bool := is_nan k.1.1 || is_nan k.2.

(** [proxies.sort(key=ProxyDBProxy.sort_key)] in [proxydb.get_proxies].
    Python's sort compares keys with [<] only and is stable; on keys without
    NaN, which [<] orders totally, its result is that of the stable insertion
    sort.  With a NaN key the comparison is no order and the arrangement
    returned depends on the merge strategy of the interpreter: that case is
    left out of the model ([None]). *)
Fixpoint insert_by_key (p : Proxy) (l : list Proxy) : list Proxy :=
  match l with
  | [] => [p]
  | q :: l' =>
      if key_ltb (sort_key q) (sort_key p) then q :: insert_by_key p l'
      else p :: q :: l'
  end.

Definition sort_proxies (l : list Proxy) : option (list Proxy) :=
  if existsb (fun p => key_has_nan (sort_key p)) l then None
  else Some (foldr insert_by_key [] l).

(** ** The rotation sequence

    [itertools.chain.from_iterable(itertools.repeat(proxies, max_cycles))]:
    [rep_times] is what is left of the [repeat] iterator, [active] the list
    iterator [chain] is currently draining, if any. *)

Record rotation := {
  rep_obj : list Proxy;
  rep_times : nat;
  active : option (list Proxy)
}.

(** [chain] fetching its next inner iterator until one yields an element. *)
Fixpoint chain_pull (obj : list Proxy) (times : nat) : option Proxy * rotation :=
  match times with
  | O => (None, {| rep_obj := obj; rep_times := O; active := None |})
  | S n =>
      match obj with
      | x :: rest => (Some x, {| rep_obj := obj; rep_times := n; active := Some rest |})
      | [] => chain_pull obj n
      end
  end.

(** [next(it, None)] *)
Definition rotation_next (it : rotation) : option Proxy * rotation :=
  match active it with
  | Some (x :: rest) =>
      (Some x, {| rep_obj := rep_obj it; rep_times := rep_times it; active := Some rest |})
  | _ => chain_pull (rep_obj it) (rep_times it)
  end.

Definition rotation_new (proxies : list Proxy) (max_cycles : Z) : rotation :=
  {| rep_obj := proxies; rep_times := Z.to_nat max_cycles; active := None |}.

(** [k] successive advances: what they yield, and the iterator left. *)
Fixpoint advances (k : nat) (it : rotation) : list (option Proxy) * rotation :=
  match k with
  | O => ([], it)
  | S k' =>
      let '(x, it') := rotation_next it in
      let '(xs, it'') := advances k' it' in
      (x :: xs, it'')
  end.

(** ** The proxy error classifier *)

(** [stack.pop()]: removes and returns the last element. *)
Definition pop {A} (l : list A) : option (A * list A) :=
  match reverse l with
  | [] => None
  | x :: r => Some (x, reverse r)
  end.

(** [filter(None, {cur.__cause__, cur.__context__})].  The set holds one or
    two members; [flip] is the order in which the set happens to iterate. *)
Definition links (flip : bool) (o : exc_obj) : list node :=
  match __cause__ o, __context__ o with
  | Some a, Some b =>
      if decide (a = b) then [a] else if flip then [b; a] else [a; b]
  | Some a, None => [a]
  | None, Some b => [b]
  | None, None => []
  end.

Section Classifier.
  (** Iteration order of the two-element sets, per object. *)
Variable order : node -> bool.
Variable g : graph.

  (** The [while stack:] loop.  Returns the verdict together with the
      objects examined, in order; [None] when [fuel] iterations were not
      enough.  An address outside [g] stands for no object: it has no class
      and no links. *)
Fixpoint walk (fuel : nat) (stack : list node) (seen : gset node)
      (visited : list node) : option (bool * list node) :=
    match fuel with
    | O => None
    | S fuel' =>
        match pop stack with
        | None => Some (false, visited)
        | Some (cur, stack') =>
            if decide (cur ∈ seen) then walk fuel' stack' seen visited
            else
              let seen' := {[cur]} ∪ seen in
              match g !! cur with
              | Some o =>
                  if isa_socks_ProxyError (cls o) then Some (true, visited ++ [cur])
                  else walk fuel' (stack' ++ links (order cur) o) seen' (visited ++ [cur])
              | None => walk fuel' stack' seen' (visited ++ [cur])
              end
        end
    end.

  (** Iterations that always suffice: each one shortens the stack or marks a
    new object, and marking pushes at most two addresses. *)
Definition walk_fuel : nat := 2 * size g + 2.

Definition search (ex : node) : option (bool * list node) :=
    walk walk_fuel [ex] ∅ [].

  (** [ResilientProxySession._is_proxy_error] *)
Definition _is_proxy_error (ex : node) : bool :=
    match g !! ex with
    | None => false
    | Some o =>
        if isa_requests_ProxyError (cls o) then true
        else if isa_requests_ConnectionError (cls o) then
          match search ex with
          | Some (b, _) => b
          | None => false
          end
        else false
    end.
End Classifier.

(** Reachability along [__cause__] and [__context__] links. *)
Inductive link (g : graph) : node -> node -> Prop :=
  | link_cause n o m : g !! n = Some o -> __cause__ o = Some m -> link g n m
  | link_context n o m : g !! n = Some o -> __context__ o = Some m -> link g n m.

Definition reach (g : graph) : node -> node -> Prop := rtc (link g).

Definition socks_node (g : graph) (n : node) : Prop :=
  exists o, g !! n = Some o /\ isa_socks_ProxyError (cls o) = true.

(** ** The resilient session *)

Section Session.
Context {U : Unicode}.
  (** Values of request options (timeouts, headers, ...) and of the retry
      parameters; responses; the network as the transport sees it. *)
Variable Value : Type.
Variable Response : Type.
Variable World : Type.

  (** [urllib3.Retry(total=..., connect=..., backoff_factor=...)] *)
Record Retry := {
    total : Value;
    connect : Value;
    backoff_factor : Value
  }.

Record Request := {
    req_method : string;
    req_url : string;
    req_kwargs : gmap string Value
  }.

  (** [requests.Session.request], the transport: it sees the proxies
      configured on the session and the retry policy of the mounted adapter,
      and either returns a response or raises. *)
Variable transport :
    World -> gmap string string -> Retry -> Request -> result Response * World.

Variable order : node -> bool.

Record Session := {
    _proxies : rotation;
    proxies : gmap string string;
    _retry : Retry;
    _timeout : Value
  }.

  (** What one call of [request] does, in order. *)
Inductive event :=
    | Transport (via : gmap string string) (r : Request)
    | Advance (yielded : option Proxy).

  (** [ResilientProxySession._set_next_proxy] *)
Definition _set_next_proxy (s : Session) : result unit * Session :=
    let '(proxy, it) := rotation_next (_proxies s) in
    match proxy with
    | None =>
        (Raise (RuntimeError "No more proxies available"),
         {| _proxies := it; proxies := proxies s;
            _retry := _retry s; _timeout := _timeout s |})
    | Some p =>
        (Ok tt,
         {| _proxies := it; proxies := requests_proxies p;
            _retry := _retry s; _timeout := _timeout s |})
    end.

  (** [ResilientProxySession.__init__] *)
Definition __init__ (proxies : list Proxy)
      (total_retries_per_proxy connect_retries_per_proxy backoff : Value)
      (max_cycles : option Z) (timeout : Value) : result Session :=
    let max_cycles := match max_cycles with Some n => n | None => 1 end in
    if Z.leb max_cycles 0 then
      Raise (ValueError "max_cycles must be a positive integer number")
    else
      let s := {| _proxies := rotation_new proxies max_cycles;
                  proxies := ∅;
                  _retry := {| total := total_retries_per_proxy;
                               connect := connect_retries_per_proxy;
                               backoff_factor := backoff |};
                  _timeout := timeout |} in
      match _set_next_proxy s with
      | (Ok _, s') => Ok s'
      | (Raise e, _) => Raise e
      end.

  (** [kwargs.setdefault(k, v)] *)
Definition setdefault (k : string) (v : Value) (kw : gmap string Value) :
      gmap string Value :=
    match kw !! k with
    | Some _ => kw
    | None => <[k := v]> kw
    end.

  (** [except requests.exceptions.ConnectionError] catches this object *)
Definition is_connection_error (g : graph) (ex : node) : bool :=
    match g !! ex with
    | Some o => isa_requests_ConnectionError (cls o)
    | None => false
    end.

  (** [ResilientProxySession.request]: outcome, session and network
      afterwards, and the events of the call. *)
Definition request (s : Session) (w : World) (method url : string)
      (kwargs : gmap string Value) :
      result Response * Session * World * list event :=
    let kwargs := setdefault "timeout" (_timeout s) kwargs in
    let req := {| req_method := method; req_url := url; req_kwargs := kwargs |} in
    let first := Transport (proxies s) req in
    let '(r1, w1) := transport w (proxies s) (_retry s) req in
    match r1 with
    | Ok resp => (Ok resp, s, w1, [first])
    | Raise (Exc g ex) =>
        if is_connection_error g ex then
          if negb (_is_proxy_error order g ex) then
            (Raise (Exc g ex), s, w1, [first])
          else
            let adv := Advance (fst (rotation_next (_proxies s))) in
            match _set_next_proxy s with
            | (Raise e, s') => (Raise e, s', w1, [first; adv])
            | (Ok _, s') =>
                let '(r2, w2) := transport w1 (proxies s') (_retry s') req in
                (r2, s', w2, [first; adv; Transport (proxies s') req])
            end
        else (Raise (Exc g ex), s, w1, [first])
    | Raise e => (Raise e, s, w1, [first])
    end.

Definition is_transport (e : event) : bool :=
    match e with Transport _ _ => true | Advance _ => false end.

Definition is_advance (e : event) : bool :=
    match e with Transport _ _ => false | Advance _ => true end.
End Session.

Arguments request {U Value Response World} transport order s w method url kwargs.
Arguments Transport {Value} via r.
Arguments Advance {Value} yielded.

(** * Vocabulary of the properties *)

(** What a rotation has yet to yield. *)
Definition remaining (it : rotation) : list Proxy :=
  match active it with Some l => l | None => [] end
  ++ concat (replicate (rep_times it) (rep_obj it)).

(** The order the sort key induces. *)
Definition num_lt (a b : number) : Prop := num_ltb a b = true.
Definition key_le (a b : key) : Prop := key_ltb b a = false.
Definition proxy_le (p q : Proxy) : Prop := key_le (sort_key p) (sort_key q).

(** A record whose metrics are numbers proper. *)
Definition nan_free (p : Proxy) : Prop := uptime p <> NaN /\ response_time p <> NaN.

Section WalkInvariant.
Variable g : graph.
Variable ex : node.

(** The loop invariant of the walk started at [ex]. *)
Record walk_inv (stack : list node) (seen : gset node) (visited : list node) : Prop := {
  inv_reach : forall n, n ∈ stack \/ n ∈ seen -> reach g ex n;
  inv_no_socks : forall n, n ∈ seen -> ~ socks_node g n;
  inv_closed : forall n m, n ∈ seen -> link g n m -> m ∈ seen \/ m ∈ stack;
  inv_root : ex ∈ seen \/ ex ∈ stack;
  inv_nodup : NoDup visited;
  inv_visited : forall n, n ∈ visited <-> n ∈ seen
}.

(** What the walk owes on return. *)
Definition walk_post (r : bool * list node) : Prop :=
  (r.1 = true <-> exists n, reach g ex n /\ socks_node g n) /\
  NoDup r.2 /\
  (forall n, n ∈ r.2 -> reach g ex n).
End WalkInvariant.

Section RequestVocabulary.
Context {Value Response World : Type}.

(** The request as the transport receives it. *)
Definition the_request (s : Session Value) (method url : string)
    (kwargs : gmap string Value) : Request Value :=
  {| req_method := method; req_url := url;
     req_kwargs := setdefault Value "timeout" (_timeout _ s) kwargs |}.

Definition events_of
    (x : result Response * Session Value * World * list (event Value)) :
    list (event Value) := x.2.

Definition outcome_of
    (x : result Response * Session Value * World * list (event Value)) :
    result Response := x.1.1.1.

Definition session_of
    (x : result Response * Session Value * World * list (event Value)) :
    Session Value := x.1.1.2.
End RequestVocabulary.

(** * Further definitions *)

(** The constructor arguments that would rebuild a record, as
    [dataclasses.replace] passes them. *)
Definition args_of (p : Proxy) : ProxyArgs :=
  {| arg_ip := ip p; arg_port := port p; arg_protocol := protocol p;
     arg_country := country p; arg_uptime := Some (uptime p);
     arg_response_time := Some (response_time p);
     arg_last_checked := Some (last_checked p);
     arg_gateway := gateway p; arg_anonymity := anonymity p |}.

(** The list iterator a rotation is draining is a tail of its list. *)
Definition rotation_wf (it : rotation) : Prop :=
  match active it with
  | Some l => l `suffix_of` rep_obj it
  | None => True
  end.

(** Advances that yielded a proxy, among the events of a call. *)
Definition is_rotation {Value} (e : event Value) : bool :=
  match e with Advance (Some _) => true | _ => false end.

Section Calls.
Context {U : Unicode} {Value Response World : Type}.
Variable transport :
  World -> gmap string string -> Retry Value -> Request Value ->
  result Response * World.
Variable order : node -> bool.

(** One call of [request] by the user of a session. *)
Record call := {
  call_method : string;
  call_url : string;
  call_kwargs : gmap string Value
}.

(** Successive calls on one session: the session and the network at the
    end, and the outcomes and events of the calls in order. *)
Fixpoint requests (s : Session Value) (w : World) (calls : list call) :
    Session Value * World * list (result Response) * list (event Value) :=
  match calls with
  | [] => (s, w, [], [])
  | c :: rest =>
      let '(r, s1, w1, ev) :=
        request transport order s w (call_method c) (call_url c) (call_kwargs c) in
      let '(s2, w2, rs, evs) := requests s1 w1 rest in
      (s2, w2, r :: rs, ev ++ evs)
  end.
End Calls.

(** A session over the list [ps]: its rotation runs over [ps] and the
    proxies it has configured are those of a member of [ps]. *)
Definition active_from {U : Unicode} {Value} (ps : list Proxy) (s : Session Value) : Prop :=
  rep_obj (_proxies _ s) = ps /\
  rotation_wf (_proxies _ s) /\
  exists p, p ∈ ps /\ proxies _ s = requests_proxies p.

(** An event that involves members of [ps] only. *)
Definition via_configured {U : Unicode} {Value} (ps : list Proxy) (e : event Value) : Prop :=
  match e with
  | Transport via _ => exists p, p ∈ ps /\ via = requests_proxies p
  | Advance (Some p) => p ∈ ps
  | Advance None => True
  end.

(** A transport event that carries the request [r]. *)
Definition carries {Value} (r : Request Value) (e : event Value) : Prop :=
  match e with
  | Transport _ r' => r' = r
  | Advance _ => True
  end.

(** What the walk owes beyond its verdict: a negative verdict has examined
    every reachable object; a positive one stopped at the first SOCKS proxy
    error it examined. *)
Definition walk_coverage (g : graph) (ex : node) (r : bool * list node) : Prop :=
  if r.1 then
    exists pre n, r.2 = pre ++ [n] /\ socks_node g n /\
                  forall m, m ∈ pre -> ~ socks_node g m
  else
    forall n, reach g ex n <-> n ∈ r.2.

(** ** The ProxyDB listing ([proxydb.py]) *)

(** [ProxyDBProxy]: a [Proxy] with the extra fields of the service; the two
    [datetime]s are kept as POSIX timestamps. *)
Record ProxyDBProxy := {
  base : Proxy;
  uptime_checks : Z;
  last_successful : Z;
  last_failed : Z
}.

(** [proxies.sort(key=ProxyDBProxy.sort_key)]: the stable sort again, on
    any records that carry a key; [None] when a key holds NaN. *)
Fixpoint insert_by {A} (keyf : A -> key) (x : A) (l : list A) : list A :=
  match l with
  | [] => [x]
  | y :: l' =>
      if key_ltb (keyf y) (keyf x) then y :: insert_by keyf x l'
      else x :: y :: l'
  end.

Definition sort_by {A} (keyf : A -> key) (l : list A) : option (list A) :=
  if existsb (fun x => key_has_nan (keyf x)) l then None
  else Some (foldr (insert_by keyf) [] l).

(** [ProxyDBProxy.sort_key] is [Proxy.sort_key], inherited. *)
Definition db_sort_key (p : ProxyDBProxy) : key := sort_key (base p).

Definition BASE_URL : string := "https://proxydb.net".

(** Truth value of a [str]. *)
Definition str_truthy (s : string) : bool :=
  match s with EmptyString => false | String _ _ => true end.

(** The "next page" anchor of a page: its [class] attribute, if any, and
    what [next_link['href']] evaluates to. *)
Record next_link := {
  link_class : option (list string);
  link_href : result string
}.

Section ProxyDB.
Context {U : Unicode}.

(** A parsed page, and the network with the HTTP session in use. *)
Variable Soup : Type.
Variable Net : Type.

(** [urllib.parse.urljoin] and [urllib.parse.urlencode]. *)
Variable urljoin : string -> string -> string.
Variable urlencode : list (string * string) -> string.

(** [_fetch]: [session.get], [raise_for_status] and the HTML parser. *)
Variable _fetch : Net -> string -> result Soup * Net.

(** [_parse_soup], the rows of a page. *)
Variable _parse_soup : Soup -> result (list ProxyDBProxy).

(** [soup.find('a', string=...)], the anchor whose text contains "next page". *)
Variable find_next : Soup -> option next_link.

(** [next_link and (class_ is None or 'disabled' not in class_)] *)
Definition has_next (nl : option next_link) : bool :=
  match nl with
  | None => false
  | Some l =>
      match link_class l with
      | None => true
      | Some cl => negb (bool_decide ("disabled" ∈ cl))
      end
  end.

(** [urljoin(BASE_URL, next_link['href']) if has_next else None] *)
Definition next_url (nl : option next_link) : result (option string) :=
  if has_next nl then
    match nl with
    | Some l =>
        match link_href l with
        | Ok h => Ok (Some (urljoin BASE_URL h))
        | Raise e => Raise e
        end
    | None => Ok None
    end
  else Ok None.

(** The [while url:] loop; [fuel] bounds the tests of [url], and the result
    is [None] when it does not suffice. *)
Fixpoint fetch_pages (fuel : nat) (w : Net) (url : option string)
    (proxies : list ProxyDBProxy) : option (result (list ProxyDBProxy) * Net) :=
  match fuel with
  | O => None
  | S fuel' =>
      match url with
      | None => Some (Ok proxies, w)
      | Some u =>
          if negb (str_truthy u) then Some (Ok proxies, w)
          else
            let '(r, w1) := _fetch w u in
            match r with
            | Raise e => Some (Raise e, w1)
            | Ok soup =>
                match _parse_soup soup with
                | Raise e => Some (Raise e, w1)
                | Ok rows =>
                    match next_url (find_next soup) with
                    | Raise e => Some (Raise e, w1)
                    | Ok url' => fetch_pages fuel' w1 url' (proxies ++ rows)
                    end
                end
            end
      end
  end.

(** The [for c in countries:] loop of recursive calls. *)
Fixpoint each_country
    (self : Net -> option (list string) -> option (list string) ->
            option (result (list ProxyDBProxy) * Net))
    (protocols : list string) (w : Net) (countries : list string)
    (proxies : list ProxyDBProxy) : option (result (list ProxyDBProxy) * Net) :=
  match countries with
  | [] => Some (Ok proxies, w)
  | c :: rest =>
      match self w (Some [c]) (Some protocols) with
      | None => None
      | Some (Raise e, w1) => Some (Raise e, w1)
      | Some (Ok l, w1) => each_country self protocols w1 rest (proxies ++ l)
      end
  end.

(** The body of [get_proxies], with [self] for its recursive call; [None]
    when [fuel] does not suffice or a record to sort holds a NaN key. *)
Definition get_proxies_body
    (self : Net -> option (list string) -> option (list string) ->
            option (result (list ProxyDBProxy) * Net))
    (fuel : nat) (w : Net) (countries protocols : option (list string)) :
    option (result (list ProxyDBProxy) * Net) :=
  let protocols := match protocols with Some l => l | None => [] end in
  let countries := match countries with Some l => l | None => [] end in
  let params := map (fun prot => ("protocol", prot)) protocols in
  if existsb (fun c => negb (Nat.eqb (py_len c) 2)) countries then
    Some (Raise (ValueError "Countries must be 2-letter country codes"), w)
  else
    let params :=
      match countries with
      | [c] => params ++ [("country", upper c)]
      | _ => params
      end in
    let fetched :=
      if Nat.leb (length countries) 1 then
        fetch_pages fuel w (Some (urljoin BASE_URL ("/?" +:+ urlencode params))) []
      else each_country self protocols w countries [] in
    match fetched with
    | None => None
    | Some (Raise e, w1) => Some (Raise e, w1)
    | Some (Ok proxies, w1) =>
        match sort_by db_sort_key proxies with
        | Some sorted => Some (Ok sorted, w1)
        | None => None
        end
    end.

(** [get_proxies].  The recursive call is made with a single country, and a
    call with a single country makes none: two levels are all there is. *)
Definition get_proxies (fuel : nat) (w : Net)
    (countries protocols : option (list string)) :
    option (result (list ProxyDBProxy) * Net) :=
  get_proxies_body (get_proxies_body (fun _ _ _ => None) fuel) fuel w
    countries protocols.
End ProxyDB.

Arguments fetch_pages {Soup Net} urljoin _fetch _parse_soup find_next fuel w url proxies.
Arguments each_country {Net} self protocols w countries proxies.
Arguments get_proxies_body {U Soup Net} urljoin urlencode _fetch _parse_soup find_next
  self fuel w countries protocols.
Arguments get_proxies {U Soup Net} urljoin urlencode _fetch _parse_soup find_next
  fuel w countries protocols.

(** A record that parsing some page produced. *)
Definition parsed {Soup} (_parse_soup : Soup -> result (list ProxyDBProxy))
    (p : ProxyDBProxy) : Prop :=
  exists soup rows, _parse_soup soup = Ok rows /\ p ∈ rows.

(** The URL of the first page of a query. *)
Definition query_url (urljoin : string -> string -> string)
    (urlencode : list (string * string) -> string)
    (params : list (string * string)) : string :=
  urljoin BASE_URL ("/?" +:+ urlencode params).

(** * Concrete inputs *)

(** The string 'ßa', in UTF-8. *)
Definition eszett_a : string :=
  String (ascii_of_N 195) (String (ascii_of_N 159) "a").

(** A Unicode table for the examples.  It knows one entry, the uppercase of
    'ßa'; the other examples use ASCII strings, for which the table is not
    consulted. *)
Global Instance example_table : Unicode | 100 := {|
  unicode_upper := fun s => if String.eqb s eszett_a then "SSA" else s;
  unicode_lower := fun s => s
|}.

Definition is_letter (c : ascii) : bool := is_lower_letter c || is_upper_letter c.

Definition mk_args (proto country : string) (up rt : option number)
    (lc : option timedelta) : ProxyArgs :=
  {| arg_ip := "10.0.0.1"; arg_port := PortInt 1080; arg_protocol := proto;
     arg_country := country; arg_uptime := up; arg_response_time := rt;
     arg_last_checked := lc; arg_gateway := None; arg_anonymity := None |}.

Definition mk_proxy (host proto : string) (up rt : number) (lc : timedelta) : Proxy :=
  {| ip := host; port := PortInt 1080; protocol := proto; country := "DE";
     uptime := up; response_time := rt; last_checked := lc;
     gateway := None; anonymity := None |}.

(** Record updates of the three metrics. *)
Definition with_uptime (v : option number) (a : ProxyArgs) : ProxyArgs :=
  {| arg_ip := arg_ip a; arg_port := arg_port a; arg_protocol := arg_protocol a;
     arg_country := arg_country a; arg_uptime := v;
     arg_response_time := arg_response_time a;
     arg_last_checked := arg_last_checked a; arg_gateway := arg_gateway a;
     arg_anonymity := arg_anonymity a |}.

Definition with_response_time (v : option number) (a : ProxyArgs) : ProxyArgs :=
  {| arg_ip := arg_ip a; arg_port := arg_port a; arg_protocol := arg_protocol a;
     arg_country := arg_country a; arg_uptime := arg_uptime a;
     arg_response_time := v;
     arg_last_checked := arg_last_checked a; arg_gateway := arg_gateway a;
     arg_anonymity := arg_anonymity a |}.

Definition with_last_checked (v : option timedelta) (a : ProxyArgs) : ProxyArgs :=
  {| arg_ip := arg_ip a; arg_port := arg_port a; arg_protocol := arg_protocol a;
     arg_country := arg_country a; arg_uptime := arg_uptime a;
     arg_response_time := arg_response_time a;
     arg_last_checked := v; arg_gateway := arg_gateway a;
     arg_anonymity := arg_anonymity a |}.

(** A record whose uptime is NaN, as [float('nan')] gives. *)
Definition recN : Proxy := mk_proxy "10.0.0.1" "http" NaN (num_of_Z 50) 1000000.

Definition recA : Proxy := mk_proxy "10.0.0.1" "socks5" (num_of_Z 90) (num_of_Z 50) 1000000.
Definition recB : Proxy := mk_proxy "10.0.0.2" "http" (num_of_Z 90) (num_of_Z 10) 5000000.

Definition cls_connection : exc_class :=
  {| isa_requests_ProxyError := false; isa_requests_ConnectionError := true;
     isa_socks_ProxyError := false |}.
Definition cls_socks : exc_class :=
  {| isa_requests_ProxyError := false; isa_requests_ConnectionError := false;
     isa_socks_ProxyError := true |}.
Definition cls_other : exc_class :=
  {| isa_requests_ProxyError := false; isa_requests_ConnectionError := false;
     isa_socks_ProxyError := false |}.

(** A [ConnectionError] raised while handling a [MaxRetryError] caused by a
    [socks.ProxyError], whose context points back at the first: a cycle. *)
Definition socks_failure : graph :=
  <[1%positive := {| cls := cls_connection; __cause__ := None;
                     __context__ := Some 2%positive |}]>
  (<[2%positive := {| cls := cls_other; __cause__ := Some 3%positive;
                      __context__ := Some 3%positive |}]>
  (<[3%positive := {| cls := cls_socks; __cause__ := None;
                      __context__ := Some 1%positive |}]> ∅)).

(** A [ConnectionError] over a name-resolution failure: no proxy error in
    the chain, which is cyclic as well. *)
Definition dns_failure : graph :=
  <[1%positive := {| cls := cls_connection; __cause__ := None;
                     __context__ := Some 2%positive |}]>
  (<[2%positive := {| cls := cls_other; __cause__ := Some 3%positive;
                      __context__ := Some 1%positive |}]>
  (<[3%positive := {| cls := cls_other; __cause__ := None;
                      __context__ := Some 2%positive |}]> ∅)).

(** Transports over a network that counts the calls made so far. *)
Definition first_proxy_down (w : nat) (via : gmap string string) (r : Retry Z)
    (q : Request Z) : result string * nat :=
  match w with
  | O => (Raise (Exc socks_failure 1%positive), S w)
  | S _ => (Ok "pong", S w)
  end.

Definition origin_unresolved (w : nat) (via : gmap string string) (r : Retry Z)
    (q : Request Z) : result string * nat :=
  (Raise (Exc dns_failure 1%positive), S w).

Definition cause_first (n : node) : bool := false.

Definition two_proxies : result (Session Z) := __init__ Z [recA; recB] 8 2 1 (Some 2) 30.
Definition one_proxy : result (Session Z) := __init__ Z [recA] 8 2 1 (Some 1) 30.

(** The sessions these constructors return. *)
Definition session_two : Session Z :=
  {| _proxies := {| rep_obj := [recA; recB]; rep_times := 1; active := Some [recB] |};
     proxies := requests_proxies recA;
     _retry := {| total := 8; connect := 2; backoff_factor := 1 |};
     _timeout := 30 |}.

Definition session_one : Session Z :=
  {| _proxies := {| rep_obj := [recA]; rep_times := 0; active := Some [] |};
     proxies := requests_proxies recA;
     _retry := {| total := 8; connect := 2; backoff_factor := 1 |};
     _timeout := 30 |}.

Definition get_ip : Request Z :=
  {| req_method := "GET"; req_url := "https://httpbin.org/ip";
     req_kwargs := <["timeout" := 30]> ∅ |}.

(** A two-page listing: the network is the log of the URLs fetched. *)
Definition row (host : string) (up : Z) : ProxyDBProxy :=
  {| base := mk_proxy host "http" (num_of_Z up) (num_of_Z 1) 1000000;
     uptime_checks := 1; last_successful := 0; last_failed := 0 |}.

Definition demo_urljoin (b h : string) : string := b +:+ h.

Fixpoint demo_urlencode (params : list (string * string)) : string :=
  match params with
  | [] => ""
  | [(k, v)] => k +:+ "=" +:+ v
  | (k, v) :: rest => k +:+ "=" +:+ v +:+ "&" +:+ demo_urlencode rest
  end.

Definition demo_fetch (w : list string) (u : string) : result nat * list string :=
  (Ok (if String.eqb u "https://proxydb.net/?page=2" then 2%nat else 1%nat), w ++ [u]).

Definition demo_parse (soup : nat) : result (list ProxyDBProxy) :=
  match soup with
  | 1%nat => Ok [row "10.0.0.1" 50; row "10.0.0.2" 90]
  | _ => Ok [row "10.0.0.3" 70]
  end.

Definition demo_next (soup : nat) : option next_link :=
  match soup with
  | 1%nat => Some {| link_class := None; link_href := Ok "/?page=2" |}
  | _ => Some {| link_class := Some ["page-link"; "disabled"]; link_href := Ok "#" |}
  end.

Definition demo_get_proxies :=
  get_proxies demo_urljoin demo_urlencode demo_fetch demo_parse demo_next.

(** * Properties *)

(** ** Strings *)

Lemma str_map_length f s : String.length (str_map f s) = String.length s.
Proof. induction s as [|c s IH]; simpl; [reflexivity | now rewrite IH]. Qed.

Lemma upper_char_not_lower c : is_lower_letter (upper_char c) = false.
Proof. destruct c as [[] [] [] [] [] [] [] []]; reflexivity. Qed.

Lemma upper_char_is_upper c : is_upper_letter (upper_char c) = is_letter c.
Proof. destruct c as [[] [] [] [] [] [] [] []]; reflexivity. Qed.

Lemma upper_char_ascii c : is_ascii_char (upper_char c) = is_ascii_char c.
Proof. destruct c as [[] [] [] [] [] [] [] []]; reflexivity. Qed.

Lemma ascii_not_continuation c : is_ascii_char c = true -> is_continuation c = false.
Proof. destruct c as [[] [] [] [] [] [] [] []]; (discriminate || reflexivity). Qed.

Lemma py_len_ascii s : is_ascii_str s = true -> py_len s = String.length s.
Proof.
  unfold is_ascii_str. induction s as [|c s IH]; simpl; [reflexivity |].
  intros [Hc Hs]%andb_prop. rewrite (ascii_not_continuation c Hc), (IH Hs). reflexivity.
Qed.

Lemma str_map_upper_no_lower s :
  str_forall (fun c => negb (is_lower_letter c)) (str_map upper_char s) = true.
Proof.
  induction s as [|c s IH]; simpl; [reflexivity |].
  now rewrite upper_char_not_lower, IH.
Qed.

Lemma str_map_upper_all_upper s :
  str_forall is_upper_letter (str_map upper_char s) = str_forall is_letter s.
Proof.
  induction s as [|c s IH]; simpl; [reflexivity |].
  now rewrite upper_char_is_upper, IH.
Qed.

Lemma str_map_upper_ascii s :
  is_ascii_str (str_map upper_char s) = is_ascii_str s.
Proof.
  unfold is_ascii_str. induction s as [|c s IH]; simpl; [reflexivity |].
  now rewrite upper_char_ascii, IH.
Qed.

Section ProxyRecord.
Context {U : Unicode}.

Lemma upper_ascii s : is_ascii_str s = true -> upper s = str_map upper_char s.
Proof. unfold upper. now intros ->. Qed.

(** ** The proxy record *)

(** C6, amended: construction fails exactly when the country string does not
    have two code points; otherwise the stored country is the input
    uppercased by [str.upper].  For an ASCII input the stored code is ASCII,
    has length 2 and no lowercase letter, and consists of two uppercase
    letters exactly when the input consists of two letters.  (For other
    inputs [str.upper] need not even keep the length.) *)
Theorem country_code_checked (a : ProxyArgs) :
  match __post_init__ a with
  | Raise e =>
      py_len (arg_country a) <> 2%nat /\
      e = ValueError "Country must be a 2-letter country code"
  | Ok p =>
      py_len (arg_country a) = 2%nat /\
      country p = upper (arg_country a) /\
      (is_ascii_str (arg_country a) = true ->
       is_ascii_str (country p) = true /\
       py_len (country p) = 2%nat /\
       str_forall (fun c => negb (is_lower_letter c)) (country p) = true /\
       str_forall is_upper_letter (country p) = str_forall is_letter (arg_country a))
  end.
Proof.
  unfold __post_init__.
  destruct (Nat.eqb_spec (py_len (arg_country a)) 2) as [Hlen|Hlen]; simpl.
  - split; [assumption |]. split; [reflexivity |]. intros Hascii.
    rewrite (upper_ascii _ Hascii).
    assert (Hup : is_ascii_str (str_map upper_char (arg_country a)) = true)
      by now rewrite str_map_upper_ascii.
    split; [assumption |]. split.
    + rewrite (py_len_ascii _ Hup), str_map_length, <- (py_len_ascii _ Hascii).
      assumption.
    + split; [apply str_map_upper_no_lower | apply str_map_upper_all_upper].
  - split; [assumption | reflexivity].
Qed.

(** C8: the transport-facing URL is the canonical URL with only its scheme
    rewritten: [socks4] becomes [socks4a], [socks5] becomes [socks5h], any
    other scheme (so [http] and [https]) stays; what follows the scheme, host
    and port, is the same in both URLs. *)
Theorem requests_url_scheme (p : Proxy) :
  let rest := "://" +:+ ip p +:+ ":" +:+ port_str (port p) in
  url p = lower (protocol p) +:+ rest /\
  requests_url p = requests_protocol p +:+ rest /\
  (lower (protocol p) = "socks4" -> requests_protocol p = "socks4a") /\
  (lower (protocol p) = "socks5" -> requests_protocol p = "socks5h") /\
  (lower (protocol p) = "http" -> requests_url p = url p) /\
  (lower (protocol p) = "https" -> requests_url p = url p) /\
  (lower (protocol p) <> "socks4" -> lower (protocol p) <> "socks5" ->
   requests_url p = url p).
Proof.
  unfold url, requests_url, requests_protocol. simpl.
  repeat split; try (intros ->; reflexivity).
  intros H4 H5.
  destruct (String.eqb_spec (lower (protocol p)) "socks4"); [contradiction |].
  destruct (String.eqb_spec (lower (protocol p)) "socks5"); [contradiction |].
  reflexivity.
Qed.

(** C10: normalisation replaces every falsy metric, not only [None]: a
    response time of 0 is stored as +infinity, a zero [last_checked] as the
    maximum duration, and an uptime of [None] (or 0) as 0.0; a record built
    with a zero metric equals the one built with the metric missing. *)
Theorem falsy_metrics_defaulted (a : ProxyArgs) (p : Proxy)
    (Hp : __post_init__ a = Ok p) :
  (arg_response_time a = Some (num_of_Z 0) -> response_time p = float_inf) /\
  (arg_response_time a = None -> response_time p = float_inf) /\
  (arg_last_checked a = Some 0 -> last_checked p = timedelta_max) /\
  (arg_last_checked a = None -> last_checked p = timedelta_max) /\
  (arg_uptime a = None -> uptime p = num_of_Z 0) /\
  (arg_uptime a = Some (num_of_Z 0) -> uptime p = num_of_Z 0) /\
  __post_init__ (with_response_time (Some (num_of_Z 0)) a) =
    __post_init__ (with_response_time None a) /\
  __post_init__ (with_last_checked (Some 0) a) = __post_init__ (with_last_checked None a) /\
  __post_init__ (with_uptime (Some (num_of_Z 0)) a) = __post_init__ (with_uptime None a).
Proof.
  unfold __post_init__ in *.
  destruct (negb (py_len (arg_country a) =? 2)%nat); [discriminate |].
  injection Hp as <-. simpl.
  repeat split; try (intros ->; reflexivity).
Qed.
End ProxyRecord.

(** C6, as stated, fails: a country of length 2 that is not made of letters
    is accepted and stored as it is, so the stored code need not consist of
    uppercase letters.  Here the country is ["12"]. *)
Lemma country_not_always_letters :
  ~ (forall a : ProxyArgs,
       py_len (arg_country a) = 2%nat ->
       exists p, __post_init__ a = Ok p /\
                 py_len (country p) = 2%nat /\
                 str_forall is_upper_letter (country p) = true).
Proof.
  intros H.
  destruct (H (mk_args "http" "12" None None None) eq_refl) as (p & Hp & _ & Hup).
  vm_compute in Hp. injection Hp as <-. vm_compute in Hup. discriminate.
Qed.

(** Nor does uppercasing keep the length beyond ASCII: 'ßa' has two code
    points and is stored as 'SSA'. *)
Example eszett_country_grows :
  py_len eszett_a = 2%nat /\
  exists p, __post_init__ (mk_args "http" eszett_a None None None) = Ok p /\
            country p = "SSA".
Proof. split; [reflexivity |]. eexists. split; reflexivity. Qed.

Lemma country_code_checked_witness :
  exists p, __post_init__ (mk_args "http" "us" None None None) = Ok p /\
            country p = "US" /\ py_len (country p) = 2%nat.
Proof.
  pose proof (country_code_checked (mk_args "http" "us" None None None)) as H.
  destruct (__post_init__ (mk_args "http" "us" None None None)) as [p|e] eqn:E.
  - destruct H as (_ & Hc & Hascii). destruct (Hascii eq_refl) as (_ & Hlen & _).
    exists p. split; [reflexivity |]. split; [rewrite Hc; reflexivity | exact Hlen].
  - vm_compute in E. discriminate.
Defined.

Lemma requests_url_scheme_witness :
  requests_url (mk_proxy "10.0.0.1" "SOCKS5" PInf PInf 0) = "socks5h://10.0.0.1:1080" /\
  requests_url (mk_proxy "10.0.0.1" "socks4" PInf PInf 0) = "socks4a://10.0.0.1:1080" /\
  requests_url (mk_proxy "10.0.0.1" "HTTPS" PInf PInf 0) = "https://10.0.0.1:1080".
Proof.
  split; [|split].
  - pose proof (requests_url_scheme (mk_proxy "10.0.0.1" "SOCKS5" PInf PInf 0))
      as (_ & Hu & _ & H5 & _).
    rewrite Hu, (H5 eq_refl). reflexivity.
  - pose proof (requests_url_scheme (mk_proxy "10.0.0.1" "socks4" PInf PInf 0))
      as (_ & Hu & H4 & _).
    rewrite Hu, (H4 eq_refl). reflexivity.
  - pose proof (requests_url_scheme (mk_proxy "10.0.0.1" "HTTPS" PInf PInf 0))
      as (_ & _ & _ & _ & _ & Hs & _).
    rewrite (Hs eq_refl). reflexivity.
Defined.

Lemma falsy_metrics_defaulted_witness :
  exists p,
    __post_init__ (mk_args "http" "us" None (Some (num_of_Z 0)) (Some 0)) = Ok p /\
    response_time p = float_inf /\ last_checked p = timedelta_max /\
    uptime p = num_of_Z 0.
Proof.
  eexists. split; [reflexivity |].
  pose proof (falsy_metrics_defaulted
                (mk_args "http" "us" None (Some (num_of_Z 0)) (Some 0)) _ eq_refl)
    as (Hr & _ & Hl & _ & Hu & _).
  split; [exact (Hr eq_refl) | split; [exact (Hl eq_refl) | exact (Hu eq_refl)]].
Defined.

(** ** The default order *)

Lemma num_eqb_eq a b : num_eqb a b = true <-> a = b /\ a <> NaN.
Proof.
  destruct a as [|x| |], b as [|y| |]; simpl; rewrite ?bool_decide_eq_true;
    split; try done; try (intros [? ?]; done).
Qed.

Lemma is_nan_false a : is_nan a = false <-> a <> NaN.
Proof. by destruct a. Qed.

Lemma num_ltb_irrefl a : num_ltb a a = false.
Proof.
  destruct a as [|x| |]; simpl; try done.
  apply bool_decide_eq_false. intros H. by apply Qclt_not_eq in H.
Qed.

Lemma num_ltb_trans a b c : num_ltb a b = true -> num_ltb b c = true -> num_ltb a c = true.
Proof.
  destruct a as [|x| |], b as [|y| |], c as [|z| |]; simpl; try done.
  rewrite !bool_decide_eq_true. apply Qclt_trans.
Qed.

Lemma num_ltb_total a b :
  a <> NaN -> b <> NaN -> num_ltb a b = true \/ a = b \/ num_ltb b a = true.
Proof.
  destruct a as [|x| |], b as [|y| |]; simpl; auto; try done.
  intros _ _. rewrite !bool_decide_eq_true.
  destruct (Qclt_le_dec x y) as [?|Hle]; [auto |].
  destruct (Qclt_le_dec y x) as [?|Hle']; [auto |].
  right. left. f_equal. by apply Qcle_antisym.
Qed.

Lemma num_ltb_neg a b : num_ltb (num_neg a) (num_neg b) = num_ltb b a.
Proof.
  destruct a as [|x| |], b as [|y| |]; simpl; try done.
  apply bool_decide_ext. split; intros H.
  - apply Qcnot_le_lt. intros Hle. apply Qcopp_le_compat in Hle.
    by apply Qcle_not_lt in Hle.
  - apply Qcnot_le_lt. intros Hle. apply Qcopp_le_compat in Hle.
    rewrite !Qcopp_involutive in Hle. by apply Qcle_not_lt in Hle.
Qed.

Lemma num_neg_inj a b : num_neg a = num_neg b -> a = b.
Proof.
  destruct a as [|x| |], b as [|y| |]; simpl; try done.
  intros H. f_equal.
  assert (E : (- x)%Qc = (- y)%Qc)
    by exact (f_equal (fun n => match n with Fin q => q | _ => (- x)%Qc end) H).
  by rewrite <- (Qcopp_involutive x), E, Qcopp_involutive.
Qed.

Lemma num_neg_nan a : num_neg a = NaN <-> a = NaN.
Proof. by destruct a. Qed.

Lemma num_eqb_neg a b : num_eqb (num_neg a) (num_neg b) = num_eqb a b.
Proof.
  apply eq_true_iff_eq. rewrite !num_eqb_eq, num_neg_nan. split.
  - intros [H ?]. split; [by apply num_neg_inj | done].
  - intros [-> ?]. done.
Qed.

Lemma key_ltb_lex (a b : key) :
  key_ltb a b = true <->
  num_lt a.1.1 b.1.1 \/
  (num_eqb a.1.1 b.1.1 = true /\
   (a.1.2 < b.1.2 \/ (a.1.2 = b.1.2 /\ num_lt a.2 b.2))).
Proof.
  destruct a as [[a1 a2] a3], b as [[b1 b2] b3]. unfold key_ltb, num_lt. simpl.
  destruct (num_eqb a1 b1) eqn:H1; simpl.
  - apply num_eqb_eq in H1 as [<- _]. rewrite num_ltb_irrefl.
    destruct (Z.eqb_spec a2 b2) as [->|H2]; simpl.
    + split; [intros H; right; split; [done |]; right; by split |].
      intros [?|[_ [?|[_ ?]]]]; [done | lia | done].
    + rewrite Z.ltb_lt. split; [intros H; right; split; [done |]; by left |].
      intros [?|[_ [?|[? _]]]]; [done | done | done].
  - split; [by left |]. intros [?|[? _]]; done.
Qed.

Lemma key_ltb_irrefl a : key_ltb a a = false.
Proof.
  apply not_true_iff_false. rewrite key_ltb_lex. unfold num_lt.
  rewrite !num_ltb_irrefl. intros [?|[_ [?|[_ ?]]]]; [done | lia | done].
Qed.

Lemma key_ltb_trans a b c :
  key_ltb a b = true -> key_ltb b c = true -> key_ltb a c = true.
Proof.
  rewrite !key_ltb_lex. unfold num_lt. rewrite !num_eqb_eq.
  intros [H1|[[E1 N1] [H2|[E2 H3]]]] [K1|[[F1 M1] [K2|[F2 K3]]]].
  - left. by eapply num_ltb_trans.
  - left. by rewrite <- F1.
  - left. by rewrite <- F1.
  - left. by rewrite E1.
  - right. split; [split; congruence |]. left. lia.
  - right. split; [split; congruence |]. left. lia.
  - left. by rewrite E1.
  - right. split; [split; congruence |]. left. lia.
  - right. split; [split; congruence |]. right. split; [congruence |].
    by eapply num_ltb_trans.
Qed.

Lemma key_has_nan_false (a : key) :
  key_has_nan a = false <-> a.1.1 <> NaN /\ a.2 <> NaN.
Proof.
  unfold key_has_nan. rewrite orb_false_iff, !is_nan_false. done.
Qed.

Lemma key_ltb_total a b :
  key_has_nan a = false -> key_has_nan b = false ->
  key_ltb a b = true \/ a = b \/ key_ltb b a = true.
Proof.
  rewrite !key_has_nan_false, !key_ltb_lex. unfold num_lt. rewrite !num_eqb_eq.
  destruct a as [[a1 a2] a3], b as [[b1 b2] b3]. simpl. intros [Na1 Na3] [Nb1 Nb3].
  destruct (num_ltb_total a1 b1 Na1 Nb1) as [?|[->|?]]; [tauto | | tauto].
  destruct (Z.lt_total a2 b2) as [?|[->|?]]; [tauto | | tauto].
  destruct (num_ltb_total a3 b3 Na3 Nb3) as [?|[->|?]]; tauto.
Qed.

Lemma key_le_trans a b c :
  key_has_nan a = false -> key_has_nan b = false ->
  key_le a b -> key_le b c -> key_le a c.
Proof.
  unfold key_le. intros Na Nb Hab Hbc. apply not_true_iff_false. intros Hca.
  destruct (key_ltb_total b a Nb Na) as [H|[->|H]]; [congruence | congruence |].
  pose proof (key_ltb_trans _ _ _ Hca H). congruence.
Qed.

Lemma key_le_of_lt a b : key_ltb a b = true -> key_le a b.
Proof.
  unfold key_le. intros Hab. apply not_true_iff_false. intros Hba.
  pose proof (key_ltb_trans _ _ _ Hab Hba) as H. by rewrite key_ltb_irrefl in H.
Qed.

Lemma nan_free_key p : nan_free p <-> key_has_nan (sort_key p) = false.
Proof.
  rewrite key_has_nan_false. unfold nan_free, sort_key. simpl.
  by rewrite num_neg_nan.
Qed.

Lemma nan_free_existsb l :
  Forall nan_free l <-> existsb (fun p => key_has_nan (sort_key p)) l = false.
Proof.
  induction l as [|p l IH]; simpl; [split; [done | constructor] |].
  rewrite Forall_cons, orb_false_iff, IH, nan_free_key. done.
Qed.

Lemma insert_by_key_perm p l : Permutation (insert_by_key p l) (p :: l).
Proof.
  induction l as [|q l IH]; cbn [insert_by_key]; [reflexivity |].
  destruct (key_ltb (sort_key q) (sort_key p)); [|reflexivity].
  rewrite IH. apply perm_swap.
Qed.

Lemma insert_by_key_sorted p l :
  nan_free p -> Forall nan_free l ->
  StronglySorted proxy_le l -> StronglySorted proxy_le (insert_by_key p l).
Proof.
  intros Np. induction l as [|q l IH]; intros Nl Hs; cbn [insert_by_key].
  - repeat constructor.
  - apply StronglySorted_inv in Hs as [Hs Hq].
    apply Forall_cons in Nl as [Nq Nl].
    destruct (key_ltb (sort_key q) (sort_key p)) eqn:Hlt.
    + constructor; [by apply IH |].
      rewrite Forall_forall. intros x Hx.
      rewrite insert_by_key_perm in Hx.
      apply elem_of_cons in Hx as [->|Hx].
      * by apply key_le_of_lt.
      * rewrite Forall_forall in Hq. by apply Hq.
    + constructor; [by constructor |].
      constructor; [exact Hlt |].
      rewrite Forall_forall in *. intros x Hx.
      eapply (key_le_trans _ (sort_key q));
        [by apply nan_free_key | by apply nan_free_key | exact Hlt | by apply Hq].
Qed.

Lemma insert_by_key_filter p l k :
  filter (fun x => sort_key x = k) (insert_by_key p l) =
  filter (fun x => sort_key x = k) (p :: l).
Proof.
  induction l as [|q l IH]; cbn [insert_by_key]; [done |].
  destruct (key_ltb (sort_key q) (sort_key p)) eqn:Hlt; [|done].
  rewrite filter_cons, IH, !filter_cons.
  destruct (decide (sort_key q = k)) as [Hq|Hq], (decide (sort_key p = k)) as [Hp|Hp];
    try done.
  rewrite Hq, Hp, key_ltb_irrefl in Hlt. done.
Qed.

Lemma insertion_spec l :
  Forall nan_free l ->
  StronglySorted proxy_le (foldr insert_by_key [] l) /\
  Permutation (foldr insert_by_key [] l) l /\
  forall k, filter (fun x => sort_key x = k) (foldr insert_by_key [] l) =
            filter (fun x => sort_key x = k) l.
Proof.
  induction l as [|p l IH]; intros Nl; cbn [foldr].
  - split; [constructor | done].
  - apply Forall_cons in Nl as [Np Nl]. destruct (IH Nl) as (IH1 & IH2 & IH3).
    split; [apply insert_by_key_sorted; [done | by rewrite IH2 | done] |]. split.
    + by rewrite insert_by_key_perm, IH2.
    + intros k. by rewrite insert_by_key_filter, !filter_cons, IH3.
Qed.

Lemma sort_proxies_spec l :
  Forall nan_free l ->
  exists l', sort_proxies l = Some l' /\
    StronglySorted proxy_le l' /\
    Permutation l' l /\
    forall k, filter (fun x => sort_key x = k) l' =
              filter (fun x => sort_key x = k) l.
Proof.
  intros Nl. unfold sort_proxies.
  rewrite (proj1 (nan_free_existsb l) Nl). eexists. split; [done |].
  by apply insertion_spec.
Qed.

Lemma sort_key_ltb_lex p q :
  key_ltb (sort_key p) (sort_key q) = true <->
  num_lt (uptime q) (uptime p) \/
  (num_eqb (uptime p) (uptime q) = true /\
   (last_checked p < last_checked q \/
    (last_checked p = last_checked q /\ num_lt (response_time p) (response_time q)))).
Proof.
  rewrite key_ltb_lex. unfold sort_key, num_lt. simpl.
  by rewrite num_ltb_neg, num_eqb_neg.
Qed.

(** C7, as stated, fails: the order is not total.  A record whose uptime is
    NaN, which construction keeps, is neither before, after nor tied with
    another record. *)
Lemma default_order_not_total :
  ~ (forall p q : Proxy,
       key_ltb (sort_key p) (sort_key q) = true \/
       key_eqb (sort_key p) (sort_key q) = true \/
       key_ltb (sort_key q) (sort_key p) = true).
Proof.
  intros H. destruct (H recN recA) as [E|[E|E]]; vm_compute in E; discriminate.
Qed.

Example nan_uptime_is_kept :
  __post_init__ (mk_args "http" "de" (Some NaN) (Some (num_of_Z 50)) (Some 1000000))
  = Ok recN.
Proof. reflexivity. Qed.

(** C7, amended: the default order compares uptime first, higher first, then
    the last-checked duration, smaller first, then the response time, smaller
    first.  It is irreflexive and transitive, and total on the keys that hold
    no NaN; with equal uptime the smaller last-checked duration wins whatever
    the response times; sorting a list of records without NaN metrics orders
    it, keeps its elements and keeps records of equal key in their original
    order.  A (uptime 90, checked 1 s ago, latency 50) sorts before B
    (uptime 90, checked 5 s ago, latency 10). *)
Theorem default_order :
  (forall p q,
     key_ltb (sort_key p) (sort_key q) = true <->
     num_lt (uptime q) (uptime p) \/
     (num_eqb (uptime p) (uptime q) = true /\
      (last_checked p < last_checked q \/
       (last_checked p = last_checked q /\
        num_lt (response_time p) (response_time q))))) /\
  (forall a, key_ltb a a = false) /\
  (forall a b c, key_ltb a b = true -> key_ltb b c = true -> key_ltb a c = true) /\
  (forall a b, key_has_nan a = false -> key_has_nan b = false ->
     key_ltb a b = true \/ a = b \/ key_ltb b a = true) /\
  (forall p q, num_eqb (uptime p) (uptime q) = true ->
     last_checked p < last_checked q ->
     key_ltb (sort_key p) (sort_key q) = true /\
     key_ltb (sort_key q) (sort_key p) = false) /\
  (forall l, Forall nan_free l ->
     exists l', sort_proxies l = Some l' /\
       StronglySorted proxy_le l' /\
       Permutation l' l /\
       forall k, filter (fun x => sort_key x = k) l' =
                 filter (fun x => sort_key x = k) l) /\
  sort_proxies [recB; recA] = Some [recA; recB] /\
  sort_proxies [recA; recB] = Some [recA; recB].
Proof.
  split; [exact sort_key_ltb_lex |].
  split; [exact key_ltb_irrefl |].
  split; [exact key_ltb_trans |].
  split; [exact key_ltb_total |].
  split.
  { intros p q Hu Hl.
    assert (H : key_ltb (sort_key p) (sort_key q) = true).
    { apply sort_key_ltb_lex. right. split; [done |]. by left. }
    split; [done |]. by apply key_le_of_lt. }
  split; [exact sort_proxies_spec |].
  split; vm_compute; reflexivity.
Qed.

Lemma default_order_witness :
  key_ltb (sort_key recA) (sort_key recB) = true /\
  key_ltb (sort_key recB) (sort_key recA) = false.
Proof.
  destruct default_order as (_ & _ & _ & _ & H & _).
  apply (H recA recB); [vm_compute; reflexivity | unfold recA, recB; simpl; lia].
Defined.

(** ** The rotation sequence *)

Lemma chain_pull_spec obj times :
  (chain_pull obj times).1 = head (concat (replicate times obj)) /\
  remaining (chain_pull obj times).2 = tail (concat (replicate times obj)) /\
  rep_obj (chain_pull obj times).2 = obj.
Proof.
  induction times as [|n IH]; simpl; [done |].
  destruct obj as [|x rest]; [exact IH |].
  simpl. done.
Qed.

Lemma rotation_next_spec it :
  (rotation_next it).1 = head (remaining it) /\
  remaining (rotation_next it).2 = tail (remaining it).
Proof.
  destruct it as [obj times act]. unfold rotation_next. simpl.
  destruct (chain_pull_spec obj times) as (H1 & H2 & _).
  destruct act as [[|x rest]|]; [done | | done].
  by unfold remaining.
Qed.

Lemma advances_spec k : forall it,
  (advances k it).1 = map (fun i => remaining it !! i) (seq 0 k) /\
  remaining (advances k it).2 = drop k (remaining it).
Proof.
  induction k as [|k IH]; intros it; simpl; [done |].
  destruct (rotation_next_spec it) as [Hh Ht].
  destruct (rotation_next it) as [x it']. simpl in Hh, Ht.
  destruct (IH it') as [H1 H2].
  destruct (advances k it') as [xs it'']. simpl in *.
  rewrite H1, H2, Ht, Hh. split.
  - rewrite <- seq_shift, map_map.
    generalize (remaining it). intros l. f_equal.
    + by destruct l.
    + apply map_ext. intros i. by destruct l.
  - destruct (remaining it); simpl; [by rewrite drop_nil | done].
Qed.

Lemma cycles_length {A} (l : list A) n :
  length (concat (replicate n l)) = (n * length l)%nat.
Proof. induction n as [|n IH]; simpl; [done |]. rewrite length_app, IH. lia. Qed.

Lemma cycles_lookup {A} (l : list A) n : forall i,
  (i < n * length l)%nat ->
  concat (replicate n l) !! i = l !! (i mod length l)%nat.
Proof.
  induction n as [|n IH]; intros i Hi; simpl in *; [lia |].
  destruct (decide (i < length l)%nat) as [Hlt|Hge].
  - rewrite lookup_app_l by done. by rewrite Nat.mod_small.
  - rewrite lookup_app_r by lia. rewrite IH by lia. f_equal.
    assert (Hl : length l <> 0%nat) by lia.
    replace i with ((i - length l) + 1 * length l)%nat at 2 by lia.
    by rewrite Nat.Div0.mod_add.
Qed.

(** C5: for a non-empty list and a positive [max_cycles], the successive
    advances yield the list in order, [max_cycles] times over and with no
    element dropped; every advance after that signals exhaustion.  With
    [[p1; p2]] and 2 cycles: p1, p2, p1, p2, then exhaustion. *)
Theorem rotation_cycles (ps : list Proxy) (max_cycles : Z)
    (Hne : ps <> []) (Hpos : 0 < max_cycles) :
  let n := Z.to_nat max_cycles in
  let all := concat (replicate n ps) in
  (forall k, (advances k (rotation_new ps max_cycles)).1 =
             map (fun i => all !! i) (seq 0 k)) /\
  length all = (n * length ps)%nat /\
  (forall i, (i < n * length ps)%nat -> all !! i = ps !! (i mod length ps)%nat) /\
  (forall i, (n * length ps <= i)%nat -> all !! i = None) /\
  (forall k j, (n * length ps <= k)%nat ->
     (advances j (advances k (rotation_new ps max_cycles)).2).1 = replicate j None) /\
  (forall p1 p2, (advances 5 (rotation_new [p1; p2] 2)).1 =
                 [Some p1; Some p2; Some p1; Some p2; None]).
Proof.
  intros n all.
  assert (Hrem : remaining (rotation_new ps max_cycles) = all) by done.
  assert (Hlen : length all = (n * length ps)%nat) by apply cycles_length.
  split; [|split; [|split; [|split; [|split]]]].
  - intros k. destruct (advances_spec k (rotation_new ps max_cycles)) as [H _].
    by rewrite H, Hrem.
  - done.
  - intros i Hi. by apply cycles_lookup.
  - intros i Hi. apply lookup_ge_None. lia.
  - intros k j Hk.
    destruct (advances_spec k (rotation_new ps max_cycles)) as [_ H].
    destruct (advances_spec j (advances k (rotation_new ps max_cycles)).2) as [H' _].
    rewrite H', H, Hrem, drop_ge by lia.
    clear. generalize 0%nat. induction j as [|j IH]; intros s; simpl; [done |].
    by rewrite IH.
  - done.
Qed.

Lemma rotation_cycles_witness :
  let P1 := mk_proxy "10.0.0.1" "http" PInf PInf 0 in
  let P2 := mk_proxy "10.0.0.2" "http" PInf PInf 0 in
  (advances 6 (rotation_new [P1; P2] 2)).1 =
    [Some P1; Some P2; Some P1; Some P2; None; None].
Proof.
  intros P1 P2.
  assert (Hne : [P1; P2] <> []) by discriminate.
  assert (Hpos : 0 < 2) by lia.
  destruct (rotation_cycles [P1; P2] 2 Hne Hpos) as (H & _).
  rewrite H. reflexivity.
Defined.

(** ** The classifier *)

Lemma pop_None {A} (l : list A) : pop l = None -> l = [].
Proof.
  unfold pop. destruct (reverse l) as [|x r] eqn:E; [|discriminate].
  intros _. by rewrite <- (reverse_involutive l), E.
Qed.

Lemma pop_Some {A} (l l' : list A) x : pop l = Some (x, l') -> l = l' ++ [x].
Proof.
  unfold pop. destruct (reverse l) as [|y r] eqn:E; [discriminate |].
  intros [= -> <-]. by rewrite <- (reverse_involutive l), E, reverse_cons.
Qed.

Lemma links_length flip o : (length (links flip o) <= 2)%nat.
Proof.
  unfold links. destruct (__cause__ o), (__context__ o); simpl; try lia.
  case_decide; [simpl; lia |]. destruct flip; simpl; lia.
Qed.

Lemma elem_of_links flip o m :
  m ∈ links flip o <-> __cause__ o = Some m \/ __context__ o = Some m.
Proof.
  unfold links. destruct (__cause__ o) as [a|], (__context__ o) as [b|];
    [case_decide; [|destruct flip] | | |];
    rewrite ?elem_of_cons, ?elem_of_nil; intuition congruence.
Qed.

Lemma link_elem_of g flip n o m :
  g !! n = Some o -> link g n m <-> m ∈ links flip o.
Proof.
  intros Hn. rewrite elem_of_links. split.
  - intros Hl.
    inversion Hl as [n' o' m' Ho' Hc|n' o' m' Ho' Hc]; subst;
      rewrite Hn in Ho'; injection Ho' as <-; auto.
  - intros [?|?]; [eapply link_cause | eapply link_context]; eauto.
Qed.

Lemma size_unseen_fresh (d seen : gset node) cur :
  cur ∈ d -> cur ∉ seen ->
  size (d ∖ seen) = S (size (d ∖ ({[cur]} ∪ seen))).
Proof.
  intros Hd Hs.
  replace (d ∖ seen) with ({[cur]} ∪ d ∖ ({[cur]} ∪ seen)).
  - rewrite size_union by set_solver. by rewrite size_singleton.
  - apply set_eq. intros x. rewrite !elem_of_union, !elem_of_difference,
      !elem_of_union, !elem_of_singleton.
    destruct (decide (x = cur)); subst; naive_solver.
Qed.

Lemma size_unseen_absent (d seen : gset node) cur :
  cur ∉ d -> d ∖ ({[cur]} ∪ seen) = d ∖ seen.
Proof. set_solver. Qed.

Section Walk.
Variable g : graph.
Variable ex : node.

Lemma walk_inv_init : walk_inv g ex [ex] ∅ [].
  Proof.
    split.
    - intros n [Hn|Hn]; [|set_solver].
      apply list_elem_of_singleton in Hn as ->. apply rtc_refl.
    - set_solver.
    - set_solver.
    - right. set_solver.
    - constructor.
    - set_solver.
  Qed.

Lemma walk_inv_closed seen visited n :
    walk_inv g ex [] seen visited -> reach g ex n -> n ∈ seen.
  Proof.
    intros I Hr. revert n Hr. apply (rtc_ind_r (fun n => n ∈ seen)).
    - destruct (inv_root _ _ _ _ _ I) as [?|Hin]; [done |].
      by apply elem_of_nil in Hin.
    - intros y z _ Hyz IH.
      destruct (inv_closed _ _ _ _ _ I y z IH Hyz) as [?|Hin]; [done |].
      by apply elem_of_nil in Hin.
  Qed.
Lemma walk_inv_skip stack cur seen visited :
    walk_inv g ex (stack ++ [cur]) seen visited -> cur ∈ seen ->
    walk_inv g ex stack seen visited.
  Proof.
    intros I Hc. split; try apply I.
    - intros n Hn. apply (inv_reach _ _ _ _ _ I). rewrite elem_of_app. tauto.
    - intros n m Hn Hl. destruct (inv_closed _ _ _ _ _ I n m Hn Hl) as [?|Hm]; [by left |].
      apply elem_of_app in Hm as [?|Hm]; [by right |].
      apply list_elem_of_singleton in Hm as ->. by left.
    - destruct (inv_root _ _ _ _ _ I) as [?|Hm]; [by left |].
      apply elem_of_app in Hm as [?|Hm]; [by right |].
      apply list_elem_of_singleton in Hm as ->. by left.
  Qed.

Lemma walk_inv_snoc stack cur seen visited :
    walk_inv g ex (stack ++ [cur]) seen visited -> cur ∉ seen ->
    reach g ex cur /\ NoDup (visited ++ [cur]) /\
    (forall n, n ∈ visited ++ [cur] <-> n ∈ ({[cur]} ∪ seen : gset node)).
  Proof.
    intros I Hc. split; [|split].
    - apply (inv_reach _ _ _ _ _ I). left. rewrite elem_of_app, list_elem_of_singleton. tauto.
    - apply NoDup_app. split; [apply I |]. split; [|apply NoDup_singleton].
      intros n Hn Hn'. apply list_elem_of_singleton in Hn' as ->.
      by apply (inv_visited _ _ _ _ _ I) in Hn.
    - intros n. rewrite elem_of_app, list_elem_of_singleton, elem_of_union,
        elem_of_singleton, (inv_visited _ _ _ _ _ I). tauto.
  Qed.

Lemma walk_inv_visit flip stack cur o seen visited :
    walk_inv g ex (stack ++ [cur]) seen visited -> cur ∉ seen ->
    g !! cur = Some o -> isa_socks_ProxyError (cls o) = false ->
    walk_inv g ex (stack ++ links flip o) ({[cur]} ∪ seen) (visited ++ [cur]).
  Proof.
    intros I Hc Ho Hs. destruct (walk_inv_snoc _ _ _ _ I Hc) as (Hr & Hnd & Hv).
    split; [| | | |exact Hnd|exact Hv].
    - intros n [Hn|Hn].
      + apply elem_of_app in Hn as [Hn|Hn].
        * apply (inv_reach _ _ _ _ _ I). left. rewrite elem_of_app. tauto.
        * eapply rtc_r; [exact Hr |]. by apply (link_elem_of g flip cur o n).
      + apply elem_of_union in Hn as [Hn|Hn].
        * by apply elem_of_singleton in Hn as ->.
        * apply (inv_reach _ _ _ _ _ I). tauto.
    - intros n Hn. apply elem_of_union in Hn as [Hn|Hn].
      + apply elem_of_singleton in Hn as ->. intros (o' & Ho' & Hs').
        rewrite Ho in Ho'. injection Ho' as <-. congruence.
      + by apply (inv_no_socks _ _ _ _ _ I).
    - intros n m Hn Hl. rewrite elem_of_union, elem_of_singleton, elem_of_app.
      apply elem_of_union in Hn as [Hn|Hn].
      + apply elem_of_singleton in Hn as ->.
        right. right. by apply (link_elem_of g flip cur o m).
      + destruct (inv_closed _ _ _ _ _ I n m Hn Hl) as [?|Hm]; [tauto |].
        apply elem_of_app in Hm as [?|Hm]; [tauto |].
        apply list_elem_of_singleton in Hm. tauto.
    - rewrite elem_of_union, elem_of_singleton, elem_of_app.
      destruct (inv_root _ _ _ _ _ I) as [?|Hm]; [tauto |].
      apply elem_of_app in Hm as [?|Hm]; [tauto |].
      apply list_elem_of_singleton in Hm. tauto.
  Qed.

Lemma walk_inv_absent stack cur seen visited :
    walk_inv g ex (stack ++ [cur]) seen visited -> cur ∉ seen ->
    g !! cur = None ->
    walk_inv g ex stack ({[cur]} ∪ seen) (visited ++ [cur]).
  Proof.
    intros I Hc Ho. destruct (walk_inv_snoc _ _ _ _ I Hc) as (Hr & Hnd & Hv).
    split; [| | | |exact Hnd|exact Hv].
    - intros n [Hn|Hn].
      + apply (inv_reach _ _ _ _ _ I). left. rewrite elem_of_app. tauto.
      + apply elem_of_union in Hn as [Hn|Hn].
        * by apply elem_of_singleton in Hn as ->.
        * apply (inv_reach _ _ _ _ _ I). tauto.
    - intros n Hn. apply elem_of_union in Hn as [Hn|Hn].
      + apply elem_of_singleton in Hn as ->. intros (o' & Ho' & _). congruence.
      + by apply (inv_no_socks _ _ _ _ _ I).
    - intros n m Hn Hl. rewrite elem_of_union, elem_of_singleton.
      apply elem_of_union in Hn as [Hn|Hn].
      + apply elem_of_singleton in Hn as ->.
        inversion Hl; congruence.
      + destruct (inv_closed _ _ _ _ _ I n m Hn Hl) as [?|Hm]; [tauto |].
        apply elem_of_app in Hm as [?|Hm]; [tauto |].
        apply list_elem_of_singleton in Hm. tauto.
    - rewrite elem_of_union, elem_of_singleton.
      destruct (inv_root _ _ _ _ _ I) as [?|Hm]; [tauto |].
      apply elem_of_app in Hm as [?|Hm]; [tauto |].
      apply list_elem_of_singleton in Hm. tauto.
  Qed.

  (** Every run of the loop from a state satisfying the invariant ends
      within [2 * unseen + |stack| + 1] iterations, with the right verdict. *)
Lemma walk_steps order fuel : forall stack seen visited,
    walk_inv g ex stack seen visited ->
    (2 * size (dom g ∖ seen) + length stack < fuel)%nat ->
    exists r, walk order g fuel stack seen visited = Some r /\ walk_post g ex r.
  Proof.
    induction fuel as [|fuel IH]; intros stack seen visited I Hm; [lia |].
    simpl. destruct (pop stack) as [[cur stack']|] eqn:Hpop.
    - apply pop_Some in Hpop as ->. rewrite length_app in Hm. simpl in Hm.
      case_decide as Hseen.
      { apply IH; [by eapply walk_inv_skip | lia]. }
      destruct (walk_inv_snoc _ _ _ _ I Hseen) as (Hr & Hnd & Hv).
      destruct (g !! cur) as [o|] eqn:Ho.
      + destruct (isa_socks_ProxyError (cls o)) eqn:Hs.
        * eexists. split; [done |]. split; [|split]; simpl.
          -- split; [|done]. intros _. exists cur. split; [done |]. by exists o.
          -- done.
          -- intros n Hn. apply Hv in Hn. apply elem_of_union in Hn as [Hn|Hn].
             ++ by apply elem_of_singleton in Hn as ->.
             ++ apply (inv_reach _ _ _ _ _ I). tauto.
        * apply IH; [by apply walk_inv_visit |].
          assert (Hd : cur ∈ dom g) by (apply elem_of_dom; eauto).
          pose proof (size_unseen_fresh (dom g) seen cur Hd Hseen).
          pose proof (links_length (order cur) o).
          rewrite length_app. lia.
      + apply IH; [by apply walk_inv_absent |].
        assert (Hd : cur ∉ dom g) by (by apply not_elem_of_dom).
        rewrite (size_unseen_absent _ _ _ Hd). lia.
    - apply pop_None in Hpop as ->. eexists. split; [done |].
      split; [|split]; simpl.
      + split; [done |]. intros (n & Hn & Hs). exfalso.
        apply (inv_no_socks _ _ _ _ _ I n); [|done].
        by eapply walk_inv_closed.
      + apply I.
      + intros n Hn. apply (inv_reach _ _ _ _ _ I). right. by apply (inv_visited _ _ _ _ _ I).
  Qed.

  (** More iterations than needed do not change the outcome. *)
Lemma walk_mono order fuel : forall stack seen visited r,
    walk order g fuel stack seen visited = Some r ->
    walk order g (S fuel) stack seen visited = Some r.
  Proof.
    induction fuel as [|fuel IH]; intros stack seen visited r; [discriminate |].
    intros H. simpl in H. cbn [walk].
    destruct (pop stack) as [[cur stack']|]; [|done].
    case_decide; [by apply IH |].
    destruct (g !! cur) as [o|]; [|by apply IH].
    destruct (isa_socks_ProxyError (cls o)); [done | by apply IH].
  Qed.
End Walk.

Lemma search_spec order g ex :
  exists r, search order g ex = Some r /\ walk_post g ex r.
Proof.
  unfold search. apply walk_steps; [apply walk_inv_init |].
  unfold walk_fuel. simpl length.
  assert (size (dom g ∖ (∅ : gset node)) <= size g)%nat; [|lia].
  rewrite <- (size_dom (D := gset node) g). apply subseteq_size. set_solver.
Qed.

Lemma walk_more order g fuel k stack seen visited r :
  walk order g fuel stack seen visited = Some r ->
  walk order g (k + fuel) stack seen visited = Some r.
Proof. intros H. induction k as [|k IH]; [done |]. by apply walk_mono. Qed.

(** C9: the walk ends on every exception graph, whatever links it has,
    cycles included: [2 * |g| + 2] iterations always suffice and any larger
    number gives the same outcome; no object is examined twice, and only
    objects reachable from the error are examined. *)
Theorem walk_total (order : node -> bool) (g : graph) (ex : node) :
  exists b visited,
    search order g ex = Some (b, visited) /\
    (forall fuel, (walk_fuel g <= fuel)%nat ->
       walk order g fuel [ex] ∅ [] = Some (b, visited)) /\
    NoDup visited /\
    (forall n, n ∈ visited -> reach g ex n).
Proof.
  destruct (search_spec order g ex) as ([b visited] & Hs & _ & Hnd & Hr).
  exists b, visited. split; [done |]. split; [|done].
  intros fuel Hf. replace fuel with ((fuel - walk_fuel g) + walk_fuel g)%nat by lia.
  apply walk_more. exact Hs.
Qed.

(** C2: the classifier answers "proxy-originated" exactly when the error is
    itself a [requests] proxy error, or is a connection error from which a
    SOCKS proxy error can be reached along [__cause__] and [__context__]
    links; otherwise it answers "not proxy-originated". *)
Theorem is_proxy_error_iff (order : node -> bool) (g : graph) (ex : node) :
  _is_proxy_error order g ex = true <->
  exists o, g !! ex = Some o /\
    (isa_requests_ProxyError (cls o) = true \/
     (isa_requests_ConnectionError (cls o) = true /\
      exists n, reach g ex n /\ socks_node g n)).
Proof.
  unfold _is_proxy_error.
  destruct (g !! ex) as [o|] eqn:Ho.
  2: { split; [discriminate | intros (? & ? & _); discriminate]. }
  destruct (isa_requests_ProxyError (cls o)) eqn:Hp.
  { split; [|done]. intros _. exists o. auto. }
  destruct (isa_requests_ConnectionError (cls o)) eqn:Hc.
  2: { split; [discriminate |].
       intros (o' & [= <-] & [?|[? _]]); congruence. }
  destruct (search_spec order g ex) as ([b visited] & -> & Hb & _).
  simpl in Hb. rewrite Hb. split.
  - intros H. exists o. auto.
  - intros (o' & [= <-] & [?|[_ ?]]); [congruence | done].
Qed.

(** The classifier on the two concrete chains, both cyclic. *)
Example socks_failure_classified :
  search cause_first socks_failure 1%positive =
    Some (true, [1%positive; 2%positive; 3%positive]) /\
  _is_proxy_error cause_first socks_failure 1%positive = true.
Proof. split; vm_compute; reflexivity. Qed.

Example dns_failure_classified :
  search cause_first dns_failure 1%positive =
    Some (false, [1%positive; 2%positive; 3%positive]) /\
  _is_proxy_error cause_first dns_failure 1%positive = false.
Proof. split; vm_compute; reflexivity. Qed.

(** ** The session *)

Lemma rotation_exhausted_stays it :
  (rotation_next it).1 = None ->
  forall k, (advances k (rotation_next it).2).1 = replicate k None.
Proof.
  intros Hx k. destruct (rotation_next_spec it) as [Hh Ht].
  rewrite Hx in Hh.
  assert (Hrem : remaining (rotation_next it).2 = []).
  { rewrite Ht. destruct (remaining it); [done | simpl in Hh; discriminate]. }
  destruct (advances_spec k (rotation_next it).2) as [H _].
  rewrite H, Hrem. clear. generalize 0%nat.
  induction k as [|k IH]; intros i; simpl; [done |]. by rewrite IH.
Qed.

Section SessionProperties.
Context {U : Unicode} {Value Response World : Type}.
Variable transport :
    World -> gmap string string -> Retry Value -> Request Value ->
    result Response * World.
Variable order : node -> bool.


  (** Any one call invokes the transport at most twice and advances the
      rotation at most once; the first event is always a transport call
      through the proxy configured at that time. *)
Lemma request_bounded (s : Session Value) w method url kwargs :
    let ev := events_of (request transport order s w method url kwargs) in
    (length (filter (fun e => is_transport _ e = true) ev) <= 2)%nat /\
    (length (filter (fun e => is_advance _ e = true) ev) <= 1)%nat /\
    head ev = Some (Transport (proxies _ s) (the_request s method url kwargs)).
  Proof.
    unfold events_of, request, the_request.
    destruct (transport w _ _ _) as [[resp|[msg|msg|g ex]] w1]; simpl;
      try (split; [lia | split; [lia | done]]).
    destruct (is_connection_error g ex); [|simpl; split; [lia | split; [lia | done]]].
    destruct (_is_proxy_error order g ex); simpl; [|split; [lia | split; [lia | done]]].
    unfold _set_next_proxy.
    destruct (rotation_next (_proxies _ s)) as [[p|] it]; simpl.
    - destruct (transport w1 _ _ _) as [r2 w2]. simpl.
      split; [lia | split; [lia | done]].
    - split; [lia | split; [lia | done]].
  Qed.
(** C4: when the transport call fails with a connection error that the
    classifier does not attribute to the proxy, that same exception object is
    raised to the caller after this one transport call, and the session
    (rotation and active proxies alike) is left as it was. *)
Theorem non_proxy_error_propagates (s : Session Value) w method url kwargs g ex w1
    (Hcall : transport w (proxies _ s) (_retry _ s) (the_request s method url kwargs)
             = (Raise (Exc g ex), w1))
    (Hconn : is_connection_error g ex = true)
    (Hnot : _is_proxy_error order g ex = false) :
  request transport order s w method url kwargs =
    (Raise (Exc g ex), s, w1,
     [Transport (proxies _ s) (the_request s method url kwargs)]) /\
  filter (fun e => is_advance _ e = true)
    (events_of (request transport order s w method url kwargs)) = [].
Proof.
  unfold events_of, request, the_request in *.
  rewrite Hcall, Hconn, Hnot. done.
Qed.

(** C3: when the transport call fails with a connection error classified as
    proxy-originated, the rotation is advanced once.  If it yields a proxy,
    that proxy becomes the active one and the same request is sent once more
    through it; whatever this second call returns or raises is the outcome,
    with no further rotation.  If it yields none, the call fails with no
    second transport call.  Either way the transport was invoked at most
    twice and the rotation advanced exactly once. *)
Theorem proxy_error_rotates_once (s : Session Value) w method url kwargs g ex w1
    (Hcall : transport w (proxies _ s) (_retry _ s) (the_request s method url kwargs)
             = (Raise (Exc g ex), w1))
    (Hconn : is_connection_error g ex = true)
    (Hproxy : _is_proxy_error order g ex = true) :
  let req := the_request s method url kwargs in
  let res := request transport order s w method url kwargs in
  match rotation_next (_proxies _ s) with
  | (Some p, it) =>
      let s' := {| _proxies := it; proxies := requests_proxies p;
                   _retry := _retry _ s; _timeout := _timeout _ s |} in
      let '(r2, w2) := transport w1 (requests_proxies p) (_retry _ s) req in
      res = (r2, s', w2,
             [Transport (proxies _ s) req; Advance (Some p);
              Transport (requests_proxies p) req])
  | (None, it) =>
      res = (Raise (RuntimeError "No more proxies available"),
             {| _proxies := it; proxies := proxies _ s;
                _retry := _retry _ s; _timeout := _timeout _ s |},
             w1, [Transport (proxies _ s) req; Advance None])
  end /\
  (length (filter (fun e => is_transport _ e = true) (events_of res)) <= 2)%nat /\
  length (filter (fun e => is_advance _ e = true) (events_of res)) = 1%nat.
Proof.
  intros req res. subst req res.
  unfold events_of, request, the_request in *.
  rewrite Hcall, Hconn, Hproxy. simpl. unfold _set_next_proxy.
  destruct (rotation_next (_proxies _ s)) as [[p|] it]; simpl.
  - destruct (transport w1 _ _ _) as [r2 w2]. simpl. split; [done |]. split; [lia | done].
  - split; [done |]. split; [lia | done].
Qed.

(** C1, amended: when the rotation is exhausted at the advance, the request
    fails with [RuntimeError 'No more proxies available'] after its one
    transport call.  The session keeps its proxy configuration and the
    rotation stays exhausted, but no terminal state is recorded: any later
    request again starts with a transport call through the same proxy, and
    raises the same error again when that call fails with a proxy-originated
    connection error. *)
Theorem exhaustion_raises (s : Session Value) w method url kwargs g ex w1
    (Hcall : transport w (proxies _ s) (_retry _ s) (the_request s method url kwargs)
             = (Raise (Exc g ex), w1))
    (Hconn : is_connection_error g ex = true)
    (Hproxy : _is_proxy_error order g ex = true)
    (Hnone : (rotation_next (_proxies _ s)).1 = None) :
  let res := request transport order s w method url kwargs in
  let s' := session_of res in
  outcome_of res = Raise (RuntimeError "No more proxies available") /\
  events_of res = [Transport (proxies _ s) (the_request s method url kwargs);
                   Advance None] /\
  proxies _ s' = proxies _ s /\
  _retry _ s' = _retry _ s /\
  _timeout _ s' = _timeout _ s /\
  (forall k, (advances k (_proxies _ s')).1 = replicate k None) /\
  (forall w2 m2 u2 kw2,
     head (events_of (request transport order s' w2 m2 u2 kw2)) =
       Some (Transport (proxies _ s) (the_request s m2 u2 kw2))) /\
  (forall w2 m2 u2 kw2 g2 ex2 w3,
     transport w2 (proxies _ s) (_retry _ s) (the_request s m2 u2 kw2)
       = (Raise (Exc g2 ex2), w3) ->
     is_connection_error g2 ex2 = true ->
     _is_proxy_error order g2 ex2 = true ->
     outcome_of (request transport order s' w2 m2 u2 kw2) =
       Raise (RuntimeError "No more proxies available")).
Proof.
  intros res s'.
  assert (Hres : res = (Raise (RuntimeError "No more proxies available"),
                        {| _proxies := (rotation_next (_proxies _ s)).2;
                           proxies := proxies _ s;
                           _retry := _retry _ s; _timeout := _timeout _ s |},
                        w1, [Transport (proxies _ s) (the_request s method url kwargs);
                             Advance None])).
  { subst res. unfold request, the_request in *.
    rewrite Hcall, Hconn, Hproxy. simpl. unfold _set_next_proxy.
    destruct (rotation_next (_proxies _ s)) as [[p|] it]; [discriminate | done]. }
  subst s'. rewrite Hres. unfold outcome_of, events_of, session_of. simpl.
  pose proof (rotation_exhausted_stays _ Hnone) as Hstay.
  split; [done |]. split; [done |]. split; [done |]. split; [done |]. split; [done |].
  split; [exact Hstay |]. split.
  - intros w2 m2 u2 kw2.
    destruct (request_bounded
                {| _proxies := (rotation_next (_proxies _ s)).2; proxies := proxies _ s;
                   _retry := _retry _ s; _timeout := _timeout _ s |} w2 m2 u2 kw2)
      as (_ & _ & Hhd). exact Hhd.
  - intros w2 m2 u2 kw2 g2 ex2 w3 Hcall2 Hconn2 Hproxy2.
    unfold request, the_request in *. simpl.
    rewrite Hcall2, Hconn2, Hproxy2. simpl. unfold _set_next_proxy. simpl.
    pose proof (Hstay 1%nat) as H1. simpl in H1.
    destruct (rotation_next (rotation_next (_proxies _ s)).2) as [[p|] it];
      [discriminate | done].
Qed.
End SessionProperties.

(** ** The session on concrete networks *)

Lemma non_proxy_error_propagates_witness :
  exists s0,
    two_proxies = Ok s0 /\
    request origin_unresolved cause_first s0 0%nat
      "GET" "https://httpbin.org/ip" ∅ =
    (Raise (Exc dns_failure 1%positive), s0, 1%nat,
     [Transport (requests_proxies recA) get_ip]).
Proof.
  eexists. split; [reflexivity |].
  refine (proj1 (non_proxy_error_propagates origin_unresolved cause_first _ 0%nat
            "GET" "https://httpbin.org/ip" ∅ dns_failure 1%positive 1%nat _ _ _));
    vm_compute; reflexivity.
Defined.


Lemma proxy_error_rotates_once_witness :
  two_proxies = Ok session_two /\
  exists s1,
    request first_proxy_down cause_first session_two 0%nat
      "GET" "https://httpbin.org/ip" ∅ =
    (Ok "pong", s1, 2%nat,
     [Transport (requests_proxies recA) get_ip; Advance (Some recB);
      Transport (requests_proxies recB) get_ip]) /\
    proxies _ s1 = requests_proxies recB.
Proof.
  split; [reflexivity |].
  assert (Hconn : is_connection_error socks_failure 1%positive = true)
    by (vm_compute; reflexivity).
  assert (Hproxy : _is_proxy_error cause_first socks_failure 1%positive = true)
    by (vm_compute; reflexivity).
  destruct (proxy_error_rotates_once first_proxy_down cause_first session_two 0%nat
              "GET" "https://httpbin.org/ip" ∅ socks_failure 1%positive 1%nat
              eq_refl Hconn Hproxy) as [H _].
  eexists. split; [exact H | reflexivity].
Defined.

Lemma exhaustion_raises_witness :
  one_proxy = Ok session_one /\
  request first_proxy_down cause_first session_one 0%nat
    "GET" "https://httpbin.org/ip" ∅ =
  (Raise (RuntimeError "No more proxies available"),
   {| _proxies := {| rep_obj := [recA]; rep_times := 0; active := None |};
      proxies := requests_proxies recA;
      _retry := _retry _ session_one; _timeout := 30 |},
   1%nat,
   [Transport (requests_proxies recA) get_ip; Advance None]).
Proof.
  split; [reflexivity |].
  assert (Hconn : is_connection_error socks_failure 1%positive = true)
    by (vm_compute; reflexivity).
  assert (Hproxy : _is_proxy_error cause_first socks_failure 1%positive = true)
    by (vm_compute; reflexivity).
  destruct (exhaustion_raises first_proxy_down cause_first session_one 0%nat
              "GET" "https://httpbin.org/ip" ∅ socks_failure 1%positive 1%nat
              eq_refl Hconn Hproxy eq_refl) as (Ho & He & _).
  unfold outcome_of, events_of in Ho, He.
  destruct (request first_proxy_down cause_first session_one 0%nat
              "GET" "https://httpbin.org/ip" ∅) as [[[o s1] w1] ev] eqn:E.
  simpl in Ho, He. subst o ev.
  vm_compute in E. injection E as <- <-. reflexivity.
Defined.

Lemma session_one_exhausts :
  request first_proxy_down cause_first session_one 0%nat
    "GET" "https://httpbin.org/ip" ∅ =
  (Raise (RuntimeError "No more proxies available"),
   {| _proxies := {| rep_obj := [recA]; rep_times := 0; active := None |};
      proxies := requests_proxies recA;
      _retry := _retry _ session_one; _timeout := 30 |},
   1%nat,
   [Transport (requests_proxies recA) get_ip; Advance None]).
Proof. vm_compute. reflexivity. Qed.

(** C1, as stated, fails: after a request that exhausted the rotation, the
    next request on the same session still goes to the transport, and here it
    even returns a response. *)
Lemma exhausted_session_still_requests :
  ~ (forall (transport : nat -> gmap string string -> Retry Z -> Request Z ->
                         result string * nat)
            (s s' : Session Z) w w' method url kwargs ev,
       request transport cause_first s w method url kwargs =
         (Raise (RuntimeError "No more proxies available"), s', w', ev) ->
       forall w2 m2 u2 kw2,
         outcome_of (request transport cause_first s' w2 m2 u2 kw2) =
           Raise (RuntimeError "No more proxies available") /\
         filter (fun e => is_transport _ e = true)
           (events_of (request transport cause_first s' w2 m2 u2 kw2)) = []).
Proof.
  intros H.
  destruct (H first_proxy_down session_one _ 0%nat _ "GET" "https://httpbin.org/ip" ∅ _
              session_one_exhausts 1%nat "GET" "https://httpbin.org/ip" ∅) as [Ho _].
  vm_compute in Ho. discriminate.
Qed.

(** * Further properties *)

(** ** Construction of a session *)

Section Construction.
Context {U : Unicode}.

Lemma set_next_proxy_not_value_error {Value} (s : Session Value) msg :
  (_set_next_proxy Value s).1 <> Raise (ValueError msg).
Proof.
  unfold _set_next_proxy. by destruct (rotation_next (_proxies _ s)) as [[p|] it].
Qed.

(** X1: the constructor raises the [max_cycles] [ValueError] exactly when
    [max_cycles] (1 when [None]) is not positive, whatever the list of
    proxies; [None] is the same as 1. *)
Theorem init_checks_max_cycles {Value} (ps : list Proxy) (t c b : Value)
    (max_cycles : option Z) (timeout : Value) :
  (__init__ Value ps t c b max_cycles timeout =
     Raise (ValueError "max_cycles must be a positive integer number") <->
   match max_cycles with Some n => n | None => 1 end <= 0) /\
  __init__ Value ps t c b None timeout = __init__ Value ps t c b (Some 1) timeout.
Proof.
  split; [|reflexivity]. unfold __init__.
  destruct (Z.leb_spec (match max_cycles with Some n => n | None => 1 end) 0)
    as [Hle|Hgt].
  - done.
  - split; [|lia]. intros H. exfalso.
    match type of H with
    | match ?x with _ => _ end = _ =>
        pose proof (set_next_proxy_not_value_error (Value := Value)) as Hn;
        destruct x as [[[]|e] s'] eqn:E
    end; [discriminate |].
    injection H as ->.
    match type of E with _set_next_proxy _ ?s = _ =>
      apply (Hn s "max_cycles must be a positive integer number") end.
    by rewrite E.
Qed.

Lemma chain_pull_nil times :
  chain_pull [] times = (None, {| rep_obj := []; rep_times := 0; active := None |}).
Proof. induction times as [|n IH]; [done | exact IH]. Qed.

(** X2: over an empty list of proxies the constructor fails with
    [RuntimeError 'No more proxies available'], however many cycles are
    allowed. *)
Theorem init_needs_a_proxy {Value} (t c b : Value) (max_cycles : option Z)
    (timeout : Value)
    (Hpos : 0 < match max_cycles with Some n => n | None => 1 end) :
  __init__ Value [] t c b max_cycles timeout =
    Raise (RuntimeError "No more proxies available").
Proof.
  unfold __init__.
  destruct (Z.leb_spec (match max_cycles with Some n => n | None => 1 end) 0); [lia |].
  unfold _set_next_proxy, rotation_next, rotation_new. simpl.
  by rewrite chain_pull_nil.
Qed.

(** X3: over a non-empty list the constructor succeeds: the first proxy is
    the active one, the rotation still holds the rest of the list followed by
    [max_cycles - 1] full passes, and timeout and retry parameters are stored
    as given. *)
Theorem init_activates_first {Value} (p : Proxy) (rest : list Proxy)
    (t c b : Value) (max_cycles : option Z) (timeout : Value)
    (Hpos : 0 < match max_cycles with Some n => n | None => 1 end) :
  let n := Z.to_nat (match max_cycles with Some n => n | None => 1 end) in
  exists s,
    __init__ Value (p :: rest) t c b max_cycles timeout = Ok s /\
    proxies _ s = requests_proxies p /\
    remaining (_proxies _ s) = rest ++ concat (replicate (n - 1) (p :: rest)) /\
    rep_obj (_proxies _ s) = p :: rest /\
    _timeout _ s = timeout /\
    _retry _ s = {| total := t; connect := c; backoff_factor := b |}.
Proof.
  intros n. unfold __init__.
  destruct (Z.leb_spec (match max_cycles with Some n => n | None => 1 end) 0); [lia |].
  unfold _set_next_proxy, rotation_next, rotation_new. simpl.
  fold n. destruct n as [|k] eqn:E; [lia |]. simpl.
  eexists. split; [reflexivity |]. simpl. unfold remaining. simpl.
  by rewrite Nat.sub_0_r.
Qed.
End Construction.

Lemma init_needs_a_proxy_witness :
  __init__ Z [] 8 2 1 (Some 1000) 30 = Raise (RuntimeError "No more proxies available").
Proof. apply (init_needs_a_proxy 8 2 1 (Some 1000) 30). simpl. lia. Defined.

Lemma init_activates_first_witness :
  exists s,
    __init__ Z [recA; recB] 8 2 1 None 30 = Ok s /\
    proxies _ s = requests_proxies recA /\
    remaining (_proxies _ s) = [recB].
Proof.
  assert (Hpos : 0 < match @None Z with Some n => n | None => 1 end) by (simpl; lia).
  destruct (init_activates_first recA [recB] 8 2 1 None 30 Hpos)
    as (s & Hs & Hp & Hr & _).
  exists s. split; [exact Hs |]. split; [exact Hp |]. exact Hr.
Defined.

(** ** Rotation through the configured list *)

Lemma chain_pull_wf obj times :
  rotation_wf (chain_pull obj times).2 /\
  (forall p, (chain_pull obj times).1 = Some p -> p ∈ obj).
Proof.
  induction times as [|n IH]; simpl; [done |].
  destruct obj as [|x rest]; [exact IH |]. simpl. split.
  - unfold rotation_wf. simpl. by apply suffix_cons_r.
  - intros p [= <-]. apply elem_of_cons. by left.
Qed.

Lemma rotation_next_wf it :
  rotation_wf it ->
  rotation_wf (rotation_next it).2 /\
  rep_obj (rotation_next it).2 = rep_obj it /\
  (forall p, (rotation_next it).1 = Some p -> p ∈ rep_obj it).
Proof.
  destruct it as [obj times act]. unfold rotation_next, rotation_wf. simpl.
  destruct (chain_pull_spec obj times) as (_ & _ & Hobj).
  destruct (chain_pull_wf obj times) as [Hwf Hin].
  destruct act as [[|x rest]|]; simpl; intros Hs; try done.
  split; [by eapply suffix_cons_l |]. split; [done |].
  intros p [= <-]. destruct Hs as [k ->]. rewrite elem_of_app, elem_of_cons. auto.
Qed.

Lemma rotation_next_remaining it :
  length (remaining (rotation_next it).2) =
  (length (remaining it) - 1)%nat /\
  ((rotation_next it).1 = None <-> remaining it = []).
Proof.
  destruct (rotation_next_spec it) as [Hh Ht]. rewrite Hh, Ht.
  destruct (remaining it); simpl; [done |]. split; [lia | done].
Qed.

Section CallProperties.
Context {U : Unicode} {Value Response World : Type}.
Variable transport :
  World -> gmap string string -> Retry Value -> Request Value ->
  result Response * World.
Variable order : node -> bool.

(** X4: a call never touches the retry policy, the timeout or the list the
    rotation runs over; and unless its first transport call raised a
    connection error classified as proxy-originated, it is that single
    transport call: same outcome, same network, session unchanged. *)
Theorem request_is_transparent_unless_proxy_error (s : Session Value) w
    method url kwargs :
  let req := the_request s method url kwargs in
  let res := request transport order s w method url kwargs in
  let first := transport w (proxies _ s) (_retry _ s) req in
  _retry _ (session_of res) = _retry _ s /\
  _timeout _ (session_of res) = _timeout _ s /\
  rep_obj (_proxies _ (session_of res)) = rep_obj (_proxies _ s) /\
  (res = (first.1, s, first.2, [Transport (proxies _ s) req]) \/
   exists g ex,
     first.1 = Raise (Exc g ex) /\
     is_connection_error g ex = true /\
     _is_proxy_error order g ex = true).
Proof.
  unfold session_of, request, the_request. simpl.
  destruct (transport w _ _ _) as [[resp|[msg|msg|g ex]] w1] eqn:Hcall; simpl;
    try (repeat split; by left).
  destruct (is_connection_error g ex) eqn:Hconn; [|repeat split; by left].
  destruct (_is_proxy_error order g ex) eqn:Hproxy; simpl; [|repeat split; by left].
  unfold _set_next_proxy.
  assert (Hobj : rep_obj (rotation_next (_proxies _ s)).2 = rep_obj (_proxies _ s)).
  { destruct (_proxies _ s) as [obj times act]. unfold rotation_next. simpl.
    destruct (chain_pull_spec obj times) as (_ & _ & Hobj).
    by destruct act as [[|x rest]|]. }
  destruct (rotation_next (_proxies _ s)) as [[p|] it]; simpl in *.
  - destruct (transport w1 _ _ _) as [r2 w2]. simpl.
    repeat split; try done. right. by exists g, ex.
  - repeat split; try done. right. by exists g, ex.
Qed.

Lemma request_keeps_active_from ps (s : Session Value) w method url kwargs :
  active_from ps s ->
  active_from ps (session_of (request transport order s w method url kwargs)) /\
  Forall (via_configured ps) (events_of (request transport order s w method url kwargs)).
Proof.
  intros (Hobj & Hwf & p0 & Hp0 & Hact).
  assert (Hs : active_from ps s) by (split; [done | split; [done | by exists p0]]).
  assert (Hfirst : forall r : Request Value,
             via_configured ps (Transport (proxies _ s) r)) by (intros r; by exists p0).
  unfold session_of, events_of, request. simpl.
  destruct (transport w _ _ _) as [[resp|[msg|msg|g ex]] w1]; simpl;
    try (split; [done | by repeat constructor]).
  destruct (is_connection_error g ex); [|split; [done | by repeat constructor]].
  destruct (_is_proxy_error order g ex); simpl; [|split; [done | by repeat constructor]].
  unfold _set_next_proxy.
  destruct (rotation_next_wf (_proxies _ s) Hwf) as (Hwf' & Hobj' & Hin).
  destruct (rotation_next (_proxies _ s)) as [[p|] it]; simpl in *.
  - assert (Hp : p ∈ ps) by (rewrite <- Hobj; by apply Hin).
    destruct (transport w1 _ _ _) as [r2 w2]. simpl. split.
    + split; [simpl; congruence |]. split; [done |]. by exists p.
    + repeat constructor; simpl; eauto.
  - split.
    + split; [simpl; congruence |]. split; [done |]. by exists p0.
    + repeat constructor; simpl; eauto.
Qed.

Lemma requests_keep_active_from ps calls : forall (s : Session Value) w,
  active_from ps s ->
  active_from ps (requests transport order s w calls).1.1.1 /\
  Forall (via_configured ps) (requests transport order s w calls).2.
Proof.
  induction calls as [|c rest IH]; intros s w Hs; simpl; [done |].
  destruct (request_keeps_active_from ps s w (call_method c) (call_url c)
              (call_kwargs c) Hs) as [Hs1 Hev].
  unfold session_of, events_of in Hs1, Hev.
  destruct (request transport order s w _ _ _) as [[[r s1] w1] ev]. simpl in *.
  destruct (IH s1 w1 Hs1) as [Hs2 Hevs].
  destruct (requests transport order s1 w1 rest) as [[[s2 w2] rs] evs]. simpl in *.
  split; [done |]. by apply Forall_app.
Qed.

Lemma init_active_from ps (t c b : Value) max_cycles timeout s :
  __init__ Value ps t c b max_cycles timeout = Ok s -> active_from ps s.
Proof.
  unfold __init__. destruct (Z.leb _ 0); [discriminate |].
  unfold _set_next_proxy.
  assert (Hwf : rotation_wf (rotation_new ps match max_cycles with
                                             | Some n => n | None => 1 end)) by done.
  destruct (rotation_next_wf _ Hwf) as (Hwf' & Hobj' & Hin).
  destruct (rotation_next _) as [[p|] it]; simpl in *; [|discriminate].
  intros [= <-]. split; [done |]. split; [done |]. exists p. split; [by apply Hin | done].
Qed.

(** X5: through any sequence of calls on a session, every transport call
    goes through the proxies of a member of the list the session was built
    from, every proxy the rotation yields is a member of it, and so is the
    active proxy at the end. *)
Theorem calls_go_through_configured_proxies ps (t c b : Value) max_cycles
    timeout s (Hinit : __init__ Value ps t c b max_cycles timeout = Ok s)
    (calls : list (call (Value := Value))) (w : World) :
  (exists p, p ∈ ps /\
     proxies _ (requests transport order s w calls).1.1.1 = requests_proxies p) /\
  Forall (via_configured ps) (requests transport order s w calls).2.
Proof.
  destruct (requests_keep_active_from ps calls s w (init_active_from _ _ _ _ _ _ _ Hinit))
    as [(_ & _ & Hp) Hev]. done.
Qed.
Lemma request_rotations (s : Session Value) w method url kwargs :
  let res := request transport order s w method url kwargs in
  (length (filter (fun e => is_rotation e = true) (events_of res)) +
   length (remaining (_proxies _ (session_of res))))%nat =
  length (remaining (_proxies _ s)).
Proof.
  unfold session_of, events_of, request. simpl.
  destruct (transport w _ _ _) as [[resp|[msg|msg|g ex]] w1]; simpl; try done.
  destruct (is_connection_error g ex); [|done].
  destruct (_is_proxy_error order g ex); simpl; [|done].
  unfold _set_next_proxy.
  destruct (rotation_next_remaining (_proxies _ s)) as [Hlen Hnone].
  destruct (rotation_next_spec (_proxies _ s)) as [Hh _].
  destruct (rotation_next (_proxies _ s)) as [[p|] it]; simpl in *.
  - destruct (transport w1 _ _ _) as [r2 w2]. simpl.
    destruct (remaining (_proxies _ s)); [discriminate |].
    rewrite Hlen. simpl. lia.
  - rewrite Hlen. destruct Hnone as [Hnone _]. by rewrite (Hnone eq_refl).
Qed.

Lemma requests_rotations calls : forall (s : Session Value) w,
  (length (filter (fun e => is_rotation e = true)
             (requests transport order s w calls).2) +
   length (remaining (_proxies _ (requests transport order s w calls).1.1.1)))%nat =
  length (remaining (_proxies _ s)).
Proof.
  induction calls as [|c rest IH]; intros s w; simpl; [done |].
  pose proof (request_rotations s w (call_method c) (call_url c) (call_kwargs c)) as H1.
  unfold session_of, events_of in H1.
  destruct (request transport order s w _ _ _) as [[[r s1] w1] ev]. simpl in *.
  pose proof (IH s1 w1) as H2.
  destruct (requests transport order s1 w1 rest) as [[[s2 w2] rs] evs]. simpl in *.
  rewrite filter_app, length_app. lia.
Qed.

(** X6: through any sequence of calls, the rotations made and the proxies
    the rotation still holds add up to [max_cycles * len(proxies) - 1]: a
    session rotates at most that many times in its life. *)
Theorem rotations_bounded_by_cycles ps (t c b : Value) max_cycles timeout s
    (Hinit : __init__ Value ps t c b max_cycles timeout = Ok s)
    (calls : list (call (Value := Value))) (w : World) :
  let n := Z.to_nat (match max_cycles with Some n => n | None => 1 end) in
  let run := requests transport order s w calls in
  (length (filter (fun e => is_rotation e = true) run.2) +
   length (remaining (_proxies _ run.1.1.1)))%nat = (n * length ps - 1)%nat /\
  (length (filter (fun e => is_rotation e = true) run.2) <= n * length ps - 1)%nat.
Proof.
  intros n run.
  assert (Hlen : length (remaining (_proxies _ s)) = (n * length ps - 1)%nat).
  { revert Hinit. unfold __init__. destruct (Z.leb _ 0); [discriminate |].
    unfold _set_next_proxy.
    destruct (rotation_next_remaining
                (rotation_new ps match max_cycles with Some n => n | None => 1 end))
      as [Hl _].
    destruct (rotation_next _) as [[p|] it]; simpl in *; [|discriminate].
    intros [= <-]. simpl. rewrite Hl. unfold remaining, rotation_new. simpl.
    by rewrite cycles_length. }
  pose proof (requests_rotations calls s w) as H. fold run in H. lia.
Qed.

(** X7: every transport call of one [request] carries the same request:
    method and URL as given, the caller's [timeout] when there is one and the
    session's otherwise, all other options untouched. *)
Theorem request_timeout_default (s : Session Value) w method url kwargs :
  let req := the_request s method url kwargs in
  Forall (carries req) (events_of (request transport order s w method url kwargs)) /\
  req_kwargs _ req !! "timeout" =
    Some (match kwargs !! "timeout" with Some v => v | None => _timeout _ s end) /\
  (forall k, k <> "timeout" -> req_kwargs _ req !! k = kwargs !! k) /\
  req_method _ req = method /\
  req_url _ req = url.
Proof.
  split; [|split; [|split; [|done]]].
  - unfold events_of, request, the_request. simpl.
    destruct (transport w _ _ _) as [[resp|[msg|msg|g ex]] w1]; simpl;
      try by repeat constructor.
    destruct (is_connection_error g ex); [|by repeat constructor].
    destruct (_is_proxy_error order g ex); simpl; [|by repeat constructor].
    unfold _set_next_proxy.
    destruct (rotation_next (_proxies _ s)) as [[p|] it]; simpl.
    + destruct (transport w1 _ _ _) as [r2 w2]. simpl. by repeat constructor.
    + by repeat constructor.
  - unfold the_request, setdefault. simpl.
    destruct (kwargs !! "timeout") as [v|] eqn:E; [done |].
    by rewrite lookup_insert_eq.
  - intros k Hk. unfold the_request, setdefault. simpl.
    destruct (kwargs !! "timeout"); [done |]. by rewrite lookup_insert_ne.
Qed.
End CallProperties.

Lemma calls_go_through_configured_proxies_witness :
  Forall (via_configured [recA; recB])
    (requests first_proxy_down cause_first session_two 0%nat
       [{| call_method := "GET"; call_url := "https://httpbin.org/ip";
           call_kwargs := ∅ |};
        {| call_method := "GET"; call_url := "https://httpbin.org/ip";
           call_kwargs := ∅ |}]).2.
Proof.
  apply (calls_go_through_configured_proxies first_proxy_down cause_first
           [recA; recB] 8 2 1 (Some 2) 30 session_two).
  reflexivity.
Defined.

Lemma rotations_bounded_by_cycles_witness :
  (length (filter (fun e => is_rotation e = true)
     (requests first_proxy_down cause_first session_two 0%nat
        [{| call_method := "GET"; call_url := "https://httpbin.org/ip";
            call_kwargs := ∅ |}]).2) <= 3)%nat.
Proof.
  apply (rotations_bounded_by_cycles first_proxy_down cause_first
           [recA; recB] 8 2 1 (Some 2) 30 session_two).
  reflexivity.
Defined.

(** ** More on the proxy record *)

Lemma upper_char_idem c : upper_char (upper_char c) = upper_char c.
Proof. destruct c as [[] [] [] [] [] [] [] []]; reflexivity. Qed.

Lemma str_map_upper_idem s :
  str_map upper_char (str_map upper_char s) = str_map upper_char s.
Proof.
  induction s as [|c s IH]; simpl; [reflexivity |].
  now rewrite upper_char_idem, IH.
Qed.

Lemma Qc_of_Z_0 : Qc_of_Z 0 = 0%Qc.
Proof. apply Qc_is_canon. reflexivity. Qed.

Lemma num_truthy_zero : num_truthy (num_of_Z 0) = false.
Proof. unfold num_truthy, num_of_Z. rewrite Qc_of_Z_0. by rewrite bool_decide_eq_true_2. Qed.

Lemma py_or_idem {A} (truthy : A -> bool) (x : option A) (d : A) :
  py_or truthy (Some (py_or truthy x d)) d = py_or truthy x d.
Proof.
  unfold py_or. destruct x as [v|].
  - destruct (truthy v) eqn:E; [by rewrite E |]. by destruct (truthy d).
  - by destruct (truthy d).
Qed.

Section ProxyRecordMore.
Context {U : Unicode}.

Lemma upper_idem_ascii s : is_ascii_str s = true -> upper (upper s) = upper s.
Proof.
  intros Hs. rewrite (upper_ascii s Hs).
  rewrite upper_ascii by now rewrite str_map_upper_ascii.
  apply str_map_upper_idem.
Qed.

Lemma upper_len_ascii s : is_ascii_str s = true -> py_len (upper s) = py_len s.
Proof.
  intros Hs. rewrite (upper_ascii s Hs).
  rewrite !py_len_ascii, ?str_map_length; try done.
  now rewrite str_map_upper_ascii.
Qed.

(** X8: for an ASCII country, normalisation is idempotent: building a record
    again from the fields of a built record gives the same record. *)
Theorem post_init_idempotent (a : ProxyArgs) (p : Proxy)
    (Hascii : is_ascii_str (arg_country a) = true)
    (Hp : __post_init__ a = Ok p) :
  __post_init__ (args_of p) = Ok p.
Proof.
  unfold __post_init__ in *.
  destruct (Nat.eqb_spec (py_len (arg_country a)) 2) as [Hlen|]; [|discriminate].
  simpl in Hp. injection Hp as <-. unfold args_of. cbn -[py_or upper py_len].
  rewrite (upper_len_ascii _ Hascii), Hlen. cbn -[py_or upper].
  by rewrite (upper_idem_ascii _ Hascii), !py_or_idem.
Qed.

(** X9: a built record never stores a zero response time or a zero
    last-checked duration. *)
Theorem stored_metrics_never_zero (a : ProxyArgs) (p : Proxy)
    (Hp : __post_init__ a = Ok p) :
  response_time p <> num_of_Z 0 /\ last_checked p <> 0.
Proof.
  unfold __post_init__ in *.
  destruct (negb (py_len (arg_country a) =? 2)%nat); [discriminate |].
  injection Hp as <-. simpl. split.
  - assert (H : num_truthy (py_or num_truthy (arg_response_time a) float_inf) = true).
    { unfold py_or. destruct (arg_response_time a) as [v|]; [|done].
      by destruct (num_truthy v) eqn:E. }
    intros E. rewrite E, num_truthy_zero in H. discriminate.
  - assert (H : timedelta_truthy
                  (py_or timedelta_truthy (arg_last_checked a) timedelta_max) = true).
    { unfold py_or. destruct (arg_last_checked a) as [v|]; [|done].
      by destruct (timedelta_truthy v) eqn:E. }
    intros E. rewrite E in H. discriminate.
Qed.

(** X10: the transport-facing URL equals the canonical URL exactly when the
    lowercased protocol is neither [socks4] nor [socks5]. *)
Theorem requests_url_differs_for_socks (p : Proxy) :
  requests_url p = url p <->
  lower (protocol p) <> "socks4" /\ lower (protocol p) <> "socks5".
Proof.
  unfold requests_url, url, requests_protocol.
  destruct (String.eqb_spec (lower (protocol p)) "socks4") as [E4|N4].
  - rewrite E4. simpl. split; [discriminate | intros [H _]; contradiction].
  - destruct (String.eqb_spec (lower (protocol p)) "socks5") as [E5|N5].
    + rewrite E5. simpl. split; [discriminate | intros [_ H]; contradiction].
    + done.
Qed.
End ProxyRecordMore.

Lemma post_init_idempotent_witness :
  exists p, __post_init__ (mk_args "SOCKS5" "de" None (Some (num_of_Z 0)) None) = Ok p /\
            __post_init__ (args_of p) = Ok p.
Proof.
  eexists. split; [reflexivity |].
  apply (post_init_idempotent (mk_args "SOCKS5" "de" None (Some (num_of_Z 0)) None));
    reflexivity.
Defined.

(** Beyond ASCII it is not: 'SSA', stored for 'ßa', is refused as a country. *)
Example eszett_country_not_rebuilt :
  exists p, __post_init__ (mk_args "http" eszett_a None None None) = Ok p /\
            __post_init__ (args_of p) =
              Raise (ValueError "Country must be a 2-letter country code").
Proof. eexists. split; reflexivity. Qed.

Lemma stored_metrics_never_zero_witness :
  exists p, __post_init__ (mk_args "http" "us" None (Some (num_of_Z 0)) (Some 0)) = Ok p /\
            response_time p <> num_of_Z 0 /\ last_checked p <> 0.
Proof.
  eexists. split; [reflexivity |].
  apply (stored_metrics_never_zero
           (mk_args "http" "us" None (Some (num_of_Z 0)) (Some 0))).
  reflexivity.
Defined.

(** ** More on sorting *)

Lemma insertion_sorted_id l :
  StronglySorted proxy_le l -> foldr insert_by_key [] l = l.
Proof.
  induction l as [|p l IH]; intros Hs; [done |].
  apply StronglySorted_inv in Hs as [Hs Hp].
  cbn [foldr]. rewrite (IH Hs).
  destruct l as [|q l']; [done |]. cbn [insert_by_key].
  apply Forall_inv in Hp. unfold proxy_le, key_le in Hp. by rewrite Hp.
Qed.

(** X11: on records without NaN metrics, sorting a sorted list changes
    nothing, so sorting twice is sorting once. *)
Theorem sort_proxies_idempotent (l : list Proxy) (Hl : Forall nan_free l) :
  exists l', sort_proxies l = Some l' /\ sort_proxies l' = Some l'.
Proof.
  destruct (sort_proxies_spec l Hl) as (l' & Hs & Hsorted & Hperm & _).
  exists l'. split; [done |].
  assert (Hl' : Forall nan_free l') by (by rewrite Hperm).
  unfold sort_proxies. rewrite (proj1 (nan_free_existsb l') Hl').
  by rewrite insertion_sorted_id.
Qed.

Lemma sort_proxies_idempotent_witness :
  exists l', sort_proxies [recB; recA] = Some l' /\ sort_proxies l' = Some l'.
Proof.
  apply (sort_proxies_idempotent [recB; recA]).
  repeat constructor; discriminate.
Defined.

(** X12: on records without NaN metrics, the first record of the sorted
    list is a record of the list that no other record beats: none has a
    higher uptime, none a smaller key. *)
Theorem sort_proxies_best_first (l rest : list Proxy) (p : Proxy)
    (Hl : Forall nan_free l)
    (Hsort : sort_proxies l = Some (p :: rest)) :
  p ∈ l /\
  forall q, q ∈ l ->
    num_ltb (uptime p) (uptime q) = false /\
    key_ltb (sort_key q) (sort_key p) = false.
Proof.
  destruct (sort_proxies_spec l Hl) as (l' & Hs' & Hs & Hperm & _).
  rewrite Hsort in Hs'. injection Hs' as <-.
  split; [rewrite <- Hperm; apply elem_of_cons; by left |].
  intros q Hq. rewrite <- Hperm in Hq.
  assert (Hle : key_ltb (sort_key q) (sort_key p) = false).
  { apply elem_of_cons in Hq as [->|Hq]; [apply key_ltb_irrefl |].
    apply StronglySorted_inv in Hs as [_ Hall].
    rewrite Forall_forall in Hall. by apply Hall. }
  split; [|done].
  destruct (num_ltb (uptime p) (uptime q)) eqn:Hlt; [|done].
  assert (H : key_ltb (sort_key q) (sort_key p) = true)
    by (apply sort_key_ltb_lex; by left).
  congruence.
Qed.

Lemma sort_proxies_best_first_witness :
  recA ∈ [recB; recA] /\
  forall q, q ∈ [recB; recA] ->
    num_ltb (uptime recA) (uptime q) = false /\
    key_ltb (sort_key q) (sort_key recA) = false.
Proof.
  apply (sort_proxies_best_first [recB; recA] [recB] recA).
  - repeat constructor; discriminate.
  - vm_compute. reflexivity.
Defined.

(** ** More on the classifier *)

Lemma walk_steps_coverage g ex order fuel : forall stack seen visited,
  walk_inv g ex stack seen visited ->
  (2 * size (dom g ∖ seen) + length stack < fuel)%nat ->
  exists r, walk order g fuel stack seen visited = Some r /\ walk_coverage g ex r.
Proof.
  induction fuel as [|fuel IH]; intros stack seen visited I Hm; [lia |].
  simpl. destruct (pop stack) as [[cur stack']|] eqn:Hpop.
  - apply pop_Some in Hpop as ->. rewrite length_app in Hm. simpl in Hm.
    case_decide as Hseen.
    { apply IH; [by eapply walk_inv_skip | lia]. }
    destruct (g !! cur) as [o|] eqn:Ho.
    + destruct (isa_socks_ProxyError (cls o)) eqn:Hs.
      * eexists. split; [done |]. unfold walk_coverage. simpl.
        exists visited, cur. split; [done |]. split; [by exists o |].
        intros m Hin. apply (inv_no_socks _ _ _ _ _ I).
        by apply (inv_visited _ _ _ _ _ I).
      * apply IH; [by apply walk_inv_visit |].
        assert (Hd : cur ∈ dom g) by (apply elem_of_dom; eauto).
        pose proof (size_unseen_fresh (dom g) seen cur Hd Hseen).
        pose proof (links_length (order cur) o).
        rewrite length_app. lia.
    + apply IH; [by apply walk_inv_absent |].
      assert (Hd : cur ∉ dom g) by (by apply not_elem_of_dom).
      rewrite (size_unseen_absent _ _ _ Hd). lia.
  - apply pop_None in Hpop as ->. eexists. split; [done |].
    unfold walk_coverage. simpl. intros n. split.
    + intros Hr. apply (inv_visited _ _ _ _ _ I). by eapply walk_inv_closed.
    + intros Hn. apply (inv_reach _ _ _ _ _ I). right.
      by apply (inv_visited _ _ _ _ _ I).
Qed.

(** X13: the walk always ends; when it finds nothing it has examined
    exactly the objects reachable from the error, and when it finds a SOCKS
    proxy error that is the last object it examined and the only such one. *)
Theorem search_coverage (order : node -> bool) (g : graph) (ex : node) :
  exists r, search order g ex = Some r /\ walk_coverage g ex r.
Proof.
  unfold search. apply walk_steps_coverage; [apply walk_inv_init |].
  unfold walk_fuel. simpl length.
  assert (size (dom g ∖ (∅ : gset node)) <= size g)%nat; [|lia].
  rewrite <- (size_dom (D := gset node) g). apply subseteq_size. set_solver.
Qed.

(** X14: the verdict of the classifier does not depend on the order in
    which the sets of links are iterated. *)
Theorem verdict_independent_of_set_order (o1 o2 : node -> bool) (g : graph)
    (ex : node) :
  _is_proxy_error o1 g ex = _is_proxy_error o2 g ex.
Proof.
  unfold _is_proxy_error.
  destruct (g !! ex) as [o|]; [|done].
  destruct (isa_requests_ProxyError (cls o)); [done |].
  destruct (isa_requests_ConnectionError (cls o)); [|done].
  destruct (search_spec o1 g ex) as ([b1 v1] & -> & H1 & _).
  destruct (search_spec o2 g ex) as ([b2 v2] & -> & H2 & _).
  simpl in *. destruct b1, b2; try done.
  - symmetry. apply H2. by apply H1.
  - apply H1. by apply H2.
Qed.

(** ** The ProxyDB listing *)

Section SortBy.
Context {A : Type} (keyf : A -> key).

Lemma insert_by_perm x l : Permutation (insert_by keyf x l) (x :: l).
Proof.
  induction l as [|y l IH]; cbn [insert_by]; [reflexivity |].
  destruct (key_ltb (keyf y) (keyf x)); [|reflexivity].
  rewrite IH. apply perm_swap.
Qed.

Lemma insert_by_sorted x l :
  key_has_nan (keyf x) = false ->
  Forall (fun y => key_has_nan (keyf y) = false) l ->
  StronglySorted (fun a b => key_le (keyf a) (keyf b)) l ->
  StronglySorted (fun a b => key_le (keyf a) (keyf b)) (insert_by keyf x l).
Proof.
  intros Nx. induction l as [|y l IH]; intros Nl Hs; cbn [insert_by].
  - repeat constructor.
  - apply StronglySorted_inv in Hs as [Hs Hy].
    apply Forall_cons in Nl as [Ny Nl].
    destruct (key_ltb (keyf y) (keyf x)) eqn:Hlt.
    + constructor; [by apply IH |].
      rewrite Forall_forall. intros z Hz. rewrite insert_by_perm in Hz.
      apply elem_of_cons in Hz as [->|Hz].
      * by apply key_le_of_lt.
      * rewrite Forall_forall in Hy. by apply Hy.
    + constructor; [by constructor |].
      constructor; [exact Hlt |].
      rewrite Forall_forall in *. intros z Hz.
      eapply (key_le_trans _ (keyf y)); [done | done | exact Hlt | by apply Hy].
Qed.

Lemma no_nan_existsb l :
  Forall (fun y => key_has_nan (keyf y) = false) l <->
  existsb (fun x => key_has_nan (keyf x)) l = false.
Proof.
  induction l as [|x l IH]; simpl; [split; [done | constructor] |].
  by rewrite Forall_cons, orb_false_iff, IH.
Qed.

Lemma sort_by_spec l l' :
  sort_by keyf l = Some l' ->
  Forall (fun y => key_has_nan (keyf y) = false) l /\
  StronglySorted (fun a b => key_le (keyf a) (keyf b)) l' /\
  Permutation l' l.
Proof.
  unfold sort_by. destruct (existsb _ l) eqn:E; [discriminate |].
  intros [= <-]. apply no_nan_existsb in E. split; [done |].
  clear -E. induction l as [|x l IH]; cbn [foldr].
  - split; [constructor | done].
  - apply Forall_cons in E as [Nx Nl]. destruct (IH Nl) as [IH1 IH2]. split.
    + apply insert_by_sorted; [done | by rewrite IH2 | done].
    + by rewrite insert_by_perm, IH2.
Qed.

Lemma sort_by_defined l :
  Forall (fun y => key_has_nan (keyf y) = false) l ->
  exists l', sort_by keyf l = Some l'.
Proof.
  intros Nl. unfold sort_by. rewrite (proj1 (no_nan_existsb l) Nl). by eexists.
Qed.
End SortBy.

Section ProxyDBProperties.
Context {U : Unicode} {Soup Net : Type}.
Variable urljoin : string -> string -> string.
Variable urlencode : list (string * string) -> string.
Variable _fetch : Net -> string -> result Soup * Net.
Variable _parse_soup : Soup -> result (list ProxyDBProxy).
Variable find_next : Soup -> option next_link.

Abbreviation body := (get_proxies_body urljoin urlencode _fetch _parse_soup find_next).
Abbreviation pages := (fetch_pages urljoin _fetch _parse_soup find_next).

Abbreviation parsed := (parsed _parse_soup).

Lemma body_validates self fuel w cs ps c :
  c ∈ cs -> py_len c <> 2%nat ->
  body self fuel w (Some cs) ps =
    Some (Raise (ValueError "Countries must be 2-letter country codes"), w).
Proof.
  intros Hin Hlen. unfold get_proxies_body.
  assert (H : existsb (fun c => negb (Nat.eqb (py_len c) 2)) cs = true).
  { apply existsb_exists. exists c. split; [by apply list_elem_of_In |].
    by destruct (Nat.eqb_spec (py_len c) 2). }
  by rewrite H.
Qed.

(** X15: a country code whose length is not 2, anywhere in the list, makes
    [get_proxies] raise [ValueError] before any page is fetched. *)
Theorem get_proxies_validates_first fuel (w : Net) (cs : list string) ps c
    (Hin : c ∈ cs) (Hlen : py_len c <> 2%nat) :
  get_proxies urljoin urlencode _fetch _parse_soup find_next fuel w (Some cs) ps =
    Some (Raise (ValueError "Countries must be 2-letter country codes"), w).
Proof. by eapply body_validates. Qed.

Lemma fetch_pages_parsed fuel : forall w url acc l w',
  pages fuel w url acc = Some (Ok l, w') ->
  Forall parsed acc -> Forall parsed l.
Proof.
  induction fuel as [|fuel IH]; intros w url acc l w'; [discriminate |].
  cbn [fetch_pages]. destruct url as [u|]; [|by intros [= <- <-]].
  destruct (negb (str_truthy u)); [by intros [= <- <-] |].
  destruct (_fetch w u) as [[soup|e] w1]; [|discriminate].
  destruct (_parse_soup soup) as [rows|e] eqn:Hrows; [|discriminate].
  destruct (next_url urljoin (find_next soup)) as [url'|e]; [|discriminate].
  intros H Hacc. apply (IH _ _ _ _ _ H). apply Forall_app. split; [done |].
  apply Forall_forall. intros p Hp. by exists soup, rows.
Qed.

Lemma each_country_parsed self protocols :
  (forall (w0 : Net) c0 p0 l0 w1,
     self w0 c0 p0 = Some (Ok l0, w1) -> Forall parsed l0) ->
  forall cs w acc l w',
    each_country self protocols w cs acc = Some (Ok l, w') ->
    Forall parsed acc -> Forall parsed l.
Proof.
  intros Hself cs. induction cs as [|c rest IH]; intros w acc l w'; cbn [each_country].
  - by intros [= <- <-].
  - destruct (self w (Some [c]) (Some protocols)) as [[[l0|e0] w0]|] eqn:Hc;
      try discriminate.
    intros H Hacc. apply (IH _ _ _ _ H). apply Forall_app. split; [done |].
    by eapply Hself.
Qed.

Lemma body_parsed self fuel w cs ps l w' :
  (forall w0 c0 p0 l0 w1, self w0 c0 p0 = Some (Ok l0, w1) -> Forall parsed l0) ->
  body self fuel w cs ps = Some (Ok l, w') ->
  StronglySorted (fun a b => key_le (db_sort_key a) (db_sort_key b)) l /\
  Forall parsed l /\
  Forall (fun p => nan_free (base p)) l.
Proof.
  intros Hself. unfold get_proxies_body.
  destruct (existsb _ _); [discriminate |].
  match goal with |- match ?f with _ => _ end = _ -> _ =>
    destruct f as [[[acc|e] w1]|] eqn:Hf; [|discriminate|discriminate] end.
  destruct (sort_by db_sort_key acc) as [sorted|] eqn:Hsort; [|discriminate].
  intros [= <- <-].
  destruct (sort_by_spec db_sort_key acc sorted Hsort) as (Hn & Hs & Hperm).
  split; [done |]. rewrite Hperm. split.
  - destruct (Nat.leb _ 1).
    + eapply fetch_pages_parsed; [exact Hf | constructor].
    + eapply each_country_parsed; [exact Hself | exact Hf | constructor].
  - eapply Forall_impl; [exact Hn |]. intros p Hp. by apply nan_free_key.
Qed.

(** X16: the model leaves out the runs in which a record to sort holds a NaN
    uptime or response time.  In the others, a list returned by
    [get_proxies] is sorted by the default order, holds only records that
    [_parse_soup] produced, and was asked for with country codes of length 2
    only. *)
Theorem get_proxies_sorted fuel (w : Net) cs ps l w'
    (Hrun : get_proxies urljoin urlencode _fetch _parse_soup find_next fuel w cs ps = Some (Ok l, w')) :
  Forall (fun p => nan_free (base p)) l /\
  StronglySorted (fun a b => key_le (db_sort_key a) (db_sort_key b)) l /\
  Forall parsed l /\
  Forall (fun c => py_len c = 2%nat)
    (match cs with Some l => l | None => [] end).
Proof.
  unfold get_proxies in Hrun.
  destruct (body_parsed _ _ _ _ _ _ _
              (fun w0 c0 p0 l0 w1 H =>
                 proj1 (proj2 (body_parsed (fun _ _ _ => None) fuel w0 c0 p0 l0 w1
                          ltac:(discriminate) H))) Hrun) as (Hs & Hp & Hn).
  split; [done |]. split; [done |]. split; [done |].
  apply Forall_forall. intros c Hc.
  destruct (Nat.eqb_spec (py_len c) 2) as [|Hne]; [done |].
  destruct cs as [cs|]; [|by apply elem_of_nil in Hc].
  rewrite (body_validates _ _ _ _ _ _ Hc Hne) in Hrun. discriminate.
Qed.

Lemma existsb_upper cs :
  Forall (fun c => is_ascii_str c = true) cs ->
  existsb (fun c => negb (Nat.eqb (py_len c) 2)) (map upper cs) =
  existsb (fun c => negb (Nat.eqb (py_len c) 2)) cs.
Proof.
  induction cs as [|c cs IH]; intros Hcs; [done |].
  apply Forall_cons in Hcs as [Hc Hcs].
  cbn [map existsb]. by rewrite (IH Hcs), (upper_len_ascii c Hc).
Qed.

Lemma each_country_upper self protocols :
  (forall (w : Net) c, is_ascii_str c = true ->
     self w (Some [upper c]) (Some protocols) = self w (Some [c]) (Some protocols)) ->
  forall cs w acc,
    Forall (fun c => is_ascii_str c = true) cs ->
    each_country self protocols w (map upper cs) acc =
    each_country self protocols w cs acc.
Proof.
  intros Hself cs. induction cs as [|c rest IH]; intros w acc Hcs; [done |].
  apply Forall_cons in Hcs as [Hc Hcs].
  cbn [map each_country]. rewrite (Hself _ _ Hc).
  destruct (self w (Some [c]) (Some protocols)) as [[[l0|e0] w0]|]; try done.
  by apply IH.
Qed.

Lemma body_upper self fuel w cs ps :
  (forall (w : Net) c p, is_ascii_str c = true ->
     self w (Some [upper c]) p = self w (Some [c]) p) ->
  Forall (fun c => is_ascii_str c = true) cs ->
  body self fuel w (Some (map upper cs)) ps = body self fuel w (Some cs) ps.
Proof.
  intros Hself Hcs. unfold get_proxies_body.
  rewrite (existsb_upper cs Hcs), length_map.
  destruct (existsb _ cs); [done |].
  destruct cs as [|c1 [|c2 rest]]; [done | |].
  - apply Forall_cons in Hcs as [Hc _].
    cbn [map length Nat.leb]. by rewrite (upper_idem_ascii c1 Hc).
  - cbn [length Nat.leb].
    rewrite (each_country_upper self _ (fun w c => Hself w c _)); done.
Qed.

(** X17: ASCII country codes are accepted in any case: uppercasing them
    beforehand changes nothing. *)
Theorem get_proxies_country_case fuel (w : Net) (cs : list string) ps
    (Hascii : Forall (fun c => is_ascii_str c = true) cs) :
  get_proxies urljoin urlencode _fetch _parse_soup find_next fuel w (Some (map upper cs)) ps = get_proxies urljoin urlencode _fetch _parse_soup find_next fuel w (Some cs) ps.
Proof.
  unfold get_proxies. apply body_upper; [|done]. intros w0 c p Hc.
  apply (body_upper _ fuel w0 [c] p); [done |]. by repeat constructor.
Qed.

(** X18: without countries, when the first page parses, has no enabled
    next-page link and none of its rows holds a NaN uptime or response time,
    [get_proxies] returns after that one fetch, with the rows of the page in
    sorted order. *)
Theorem get_proxies_single_page fuel (w : Net) ps soup w1 rows
    (Hurl : str_truthy
              (query_url urljoin urlencode
                 (map (fun prot => ("protocol", prot))
                    (match ps with Some l => l | None => [] end))) = true)
    (Hfetch : _fetch w
                (query_url urljoin urlencode
                   (map (fun prot => ("protocol", prot))
                      (match ps with Some l => l | None => [] end)))
              = (Ok soup, w1))
    (Hparse : _parse_soup soup = Ok rows)
    (Hlast : has_next (find_next soup) = false)
    (Hnan : Forall (fun p => nan_free (base p)) rows) :
  exists sorted,
    get_proxies urljoin urlencode _fetch _parse_soup find_next (S (S fuel)) w None ps = Some (Ok sorted, w1) /\
    sort_by db_sort_key rows = Some sorted /\
    StronglySorted (fun a b => key_le (db_sort_key a) (db_sort_key b)) sorted /\
    Permutation sorted rows.
Proof.
  assert (Hn : Forall (fun y => key_has_nan (db_sort_key y) = false) rows).
  { eapply Forall_impl; [exact Hnan |]. intros p Hp. by apply nan_free_key. }
  destruct (sort_by_defined db_sort_key rows Hn) as [sorted Hsort].
  destruct (sort_by_spec db_sort_key rows sorted Hsort) as (_ & Hs & Hperm).
  exists sorted. split; [|done].
  unfold get_proxies, get_proxies_body, query_url in *.
  cbn [existsb length Nat.leb fetch_pages].
  rewrite Hurl. cbn [negb]. rewrite Hfetch, Hparse.
  unfold next_url. rewrite Hlast. cbn [app]. by rewrite Hsort.
Qed.
End ProxyDBProperties.

Lemma get_proxies_validates_first_witness :
  demo_get_proxies 5 [] (Some ["us"; "deu"]) None =
    Some (Raise (ValueError "Countries must be 2-letter country codes"), []).
Proof.
  apply (get_proxies_validates_first demo_urljoin demo_urlencode demo_fetch
           demo_parse demo_next 5 [] ["us"; "deu"] None "deu").
  - apply elem_of_cons. right. apply elem_of_cons. by left.
  - simpl. lia.
Defined.

Lemma get_proxies_sorted_witness :
  exists l w',
    demo_get_proxies 5 [] (Some ["us"; "de"]) (Some ["http"]) = Some (Ok l, w') /\
    StronglySorted (fun a b => key_le (db_sort_key a) (db_sort_key b)) l /\
    Forall (parsed demo_parse) l.
Proof.
  eexists. eexists. split; [vm_compute; reflexivity |].
  destruct (get_proxies_sorted demo_urljoin demo_urlencode demo_fetch demo_parse
              demo_next 5 [] (Some ["us"; "de"]) (Some ["http"]) _ _
              ltac:(vm_compute; reflexivity)) as (_ & Hs & Hp & _).
  split; [exact Hs | exact Hp].
Defined.

Lemma get_proxies_country_case_witness :
  demo_get_proxies 5 [] (Some (map upper ["us"; "de"])) None =
  demo_get_proxies 5 [] (Some ["us"; "de"]) None.
Proof.
  apply (get_proxies_country_case demo_urljoin demo_urlencode demo_fetch
           demo_parse demo_next 5 [] ["us"; "de"] None).
  repeat constructor.
Defined.

Lemma get_proxies_single_page_witness :
  exists sorted,
    get_proxies demo_urljoin demo_urlencode demo_fetch demo_parse
      (fun _ => None) 2 [] None (Some ["socks5"]) =
    Some (Ok sorted, ["https://proxydb.net/?protocol=socks5"]) /\
    sort_by db_sort_key [row "10.0.0.1" 50; row "10.0.0.2" 90] = Some sorted.
Proof.
  destruct (get_proxies_single_page demo_urljoin demo_urlencode demo_fetch demo_parse
              (fun _ => None) 0 [] (Some ["socks5"]) 1%nat
              ["https://proxydb.net/?protocol=socks5"]
              [row "10.0.0.1" 50; row "10.0.0.2" 90])
    as (sorted & Hrun & Hsort & _);
    [reflexivity | reflexivity | reflexivity | reflexivity
     | repeat constructor; discriminate |].
  exists sorted. split; [exact Hrun | exact Hsort].
Defined.
